(** * juce::dsp::Oscillator — a shallow embedding and its properties

    Source: modules/juce_dsp/processors/juce_Oscillator.h

    The class is a template over [SampleType]; its bookkeeping is done in
    [NumericType], the scalar underlying [SampleType].  The embedding takes
    the scalar instantiation ([SampleType = NumericType]) and keeps the
    numeric type abstract behind the class [Numeric], which lists exactly the
    operations and constants the header uses.  Two instances are given:

    - [Q], exact rational arithmetic: every finite floating-point value is a
      rational and [std::fmod] is exact on them, so this is the arithmetic
      the floating-point code approximates (no rounding, no infinities);
    - [float], IEEE-754 binary64 ([NumericType = double]), on which the code
      can be run bit for bit.

    Everything that is structural (which fields change, which loop writes
    which sample) is proved for every instance.  Statements that need
    arithmetic laws are proved for the exact instance. *)

From Stdlib Require Import ZArith QArith Qround List Bool Lia Lqa.
From Stdlib Require Import Morphisms Setoid.
From Stdlib Require Import PrimFloat FloatOps SpecFloat.
Import ListNotations.

Close Scope Q_scope.

Set Implicit Arguments.

(** ** The numeric type *)

(** [NumericType] with the operations of the header.  The constants are the
    [static_cast<NumericType>] of the literals and of
    [MathConstants<double>::pi] / [twoPi] that occur in the source. *)
Class Numeric (T : Type) : Type := {
  num_zero : T;                      (* 0.0 *)
  num_pi : T;                        (* MathConstants<double>::pi *)
  num_negPi : T;                     (* -1.0 * MathConstants<double>::pi *)
  num_twoPi : T;                     (* MathConstants<double>::twoPi *)
  num_440 : T;                       (* 440.0 *)
  num_48000 : T;                     (* 48000.0 *)
  num_rampLength : T;                (* 0.05 *)
  num_add : T -> T -> T;
  num_sub : T -> T -> T;
  num_mul : T -> T -> T;
  num_div : T -> T -> T;
  num_fmod : T -> T -> T;            (* std::fmod *)
  num_ltb : T -> T -> bool;          (* operator< *)
  num_eqb : T -> T -> bool;          (* operator== *)
  num_ofNat : nat -> T;              (* static_cast<NumericType> (size_t) *)
  num_ofInt : Z -> T;                (* (FloatType) int *)
  num_floor : T -> Z                 (* (int) std::floor (x) *)
}.

Declare Scope num_scope.
Delimit Scope num_scope with num.
Notation "x + y" := (num_add x y) : num_scope.
Notation "x - y" := (num_sub x y) : num_scope.
Notation "x * y" := (num_mul x y) : num_scope.
Notation "x / y" := (num_div x y) : num_scope.

(** ** Outcomes of a call *)

(** A call either completes, or stops at a failed [jassert], or touches the
    scratch buffer outside its allocation. *)
Inductive Outcome (A : Type) : Type :=
| Done (a : A)
| ContractViolation
| OutOfBounds.

Arguments Done {A} a.
Arguments ContractViolation {A}.
Arguments OutOfBounds {A}.

Definition bind {A B : Type} (m : Outcome A) (k : A -> Outcome B) : Outcome B :=
  match m with
  | Done a => k a
  | ContractViolation => ContractViolation
  | OutOfBounds => OutOfBounds
  end.

Declare Scope outcome_scope.
Delimit Scope outcome_scope with outcome.
Notation "x <- m ;; k" := (bind m (fun x => k))
  (at level 61, m at next level, right associativity) : outcome_scope.
Notation "m ;;; k" := (bind m (fun _ => k))
  (at level 61, right associativity) : outcome_scope.

(** Modelled from the spec: the [jassert] macro is not part of the header.
    Section 7 of the specification requires a precondition violation to be
    "an explicit fail-fast check — e.g., raising a contract-violation error",
    so a failed [jassert] ends the call with [ContractViolation]. *)
Definition jassert (condition : bool) : Outcome unit :=
  if condition then Done tt else ContractViolation.

(** [for (size_t i = start; i < start + count; ++i) body] *)
Fixpoint for_range {S : Type} (start count : nat)
         (body : nat -> S -> Outcome S) (s : S) : Outcome S :=
  match count with
  | O => Done s
  | Datatypes.S count' =>
      bind (body start s) (for_range (Datatypes.S start) count' body)
  end.

(** ** Raw memory: arrays addressed by index *)

(** [p[i] = v] on storage of [length l] elements, no effect out of range
    (callers establish the range). *)
Fixpoint list_set {A : Type} (l : list A) (i : nat) (v : A) : list A :=
  match l, i with
  | [], _ => []
  | _ :: t, O => v :: t
  | h :: t, Datatypes.S i' => h :: list_set t i' v
  end.

(** The values [vs] stored one by one at the indices [i], [i + 1], ... *)
Fixpoint overwrite {A : Type} (l : list A) (i : nat) (vs : list A) : list A :=
  match vs with
  | [] => l
  | v :: vs' => overwrite (list_set l i v) (Datatypes.S i) vs'
  end.

(** [buffer[i] = v] through the raw data pointer of the scratch array. *)
Definition scratch_write {A : Type} (buffer : list A) (i : nat) (v : A)
  : Outcome (list A) :=
  if Nat.ltb i (length buffer) then Done (list_set buffer i v) else OutOfBounds.

(** [buffer[i]] through the raw data pointer of the scratch array. *)
Definition scratch_read {A : Type} (buffer : list A) (i : nat) : Outcome A :=
  match nth_error buffer i with
  | Some v => Done v
  | None => OutOfBounds
  end.

(** [Array::resize]: items are removed from, or default-constructed items
    added to, the end of the array. *)
Definition resize {A : Type} (dflt : A) (n : nat) (l : list A) : list A :=
  firstn n l ++ repeat dflt (n - length l).

(** [(int) x] for a 32-bit unsigned [x]: two's-complement reinterpretation. *)
Definition cast_int (x : Z) : Z :=
  ((x + 2 ^ 31) mod 2 ^ 32 - 2 ^ 31)%Z.

(** ** External collaborators *)

(** The function-approximation cache [LookupTableTransform<NumericType>].
    The header only constructs it ([new LookupTableTransform (function, min,
    max, numPoints)]) and calls it through the pointer; both are parameters. *)
Class ApproximationCache (T : Type) : Type := {
  LookupTableTransform : Type;
  lut_new : (T -> T) -> T -> T -> nat -> LookupTableTransform;
  lut_call : LookupTableTransform -> T -> T
}.

(** Modelled from the spec: [ScopedPointer<ObjectType>] is declared outside
    the header.  Through it the oscillator "takes exclusive ownership" of the
    cache, and the cache is released on destruction or when the pointer is
    given another one: an owning pointer, null or holding one object, whose
    [operator= (ObjectType* newObject)] takes [newObject] and deletes the
    object held before.  The second component of [sp_assign] lists what the
    assignment deleted. *)
Definition ScopedPointer (A : Type) : Type := option A.

Definition sp_assign {A : Type} (held : ScopedPointer A) (newObject : A)
  : ScopedPointer A * list A :=
  (Some newObject, match held with Some old => [old] | None => [] end).

Section Model.

Context {T : Type} {numeric : Numeric T} {cache : ApproximationCache T}.

Local Open Scope num_scope.

(** *** LinearSmoothedValue *)

(** Modelled from the spec: [LinearSmoothedValue<NumericType>] is declared
    outside the header.  Section 6 gives its contract: constructed with an
    initial value; [setValue (target, force)]; [getTargetValue ()];
    [getNextValue ()] advances one step and returns it; [isSmoothing ()] is
    true while a ramp is in progress; [reset (sampleRate, rampSeconds)]
    re-arms the ramp duration in samples and makes the value track its
    target immediately.  A non-forced [setValue] ramps linearly from the
    current value to the target "whenever the target changes", over
    [rampSeconds * sampleRate] samples; a forced one jumps. *)
Record LinearSmoothedValue : Type := mkSmoothed {
  currentValue : T;
  target : T;
  step : T;
  countdown : Z;
  stepsToTarget : Z
}.

Definition smoothed_init (initialValue : T) : LinearSmoothedValue :=
  mkSmoothed initialValue initialValue num_zero 0 0.

Definition smoothed_reset (s : LinearSmoothedValue) (sampleRate rampLengthInSeconds : T)
  : LinearSmoothedValue :=
  mkSmoothed (target s) (target s) (step s) 0
             (num_floor (rampLengthInSeconds * sampleRate)).

Definition setValue (s : LinearSmoothedValue) (newValue : T) (force : bool)
  : LinearSmoothedValue :=
  if force then
    mkSmoothed newValue newValue (step s) 0 (stepsToTarget s)
  else if num_eqb (target s) newValue then s
  else if (stepsToTarget s <=? 0)%Z then
    mkSmoothed newValue newValue (step s) (stepsToTarget s) (stepsToTarget s)
  else
    mkSmoothed (currentValue s) newValue
               ((newValue - currentValue s) / num_ofInt (stepsToTarget s))
               (stepsToTarget s) (stepsToTarget s).

Definition getTargetValue (s : LinearSmoothedValue) : T := target s.

Definition isSmoothing (s : LinearSmoothedValue) : bool := (0 <? countdown s)%Z.

(** Returns the value of the step and the advanced state. *)
Definition getNextValue (s : LinearSmoothedValue) : T * LinearSmoothedValue :=
  if (countdown s <=? 0)%Z then (target s, s)
  else
    let c := currentValue s + step s in
    (c, mkSmoothed c (target s) (step s) (countdown s - 1) (stepsToTarget s)).

(** *** The processing context *)

(** [ProcessSpec]: the sample rate (already in [NumericType]), and the two
    32-bit unsigned counts. *)
Record ProcessSpec : Type := mkSpec {
  spec_sampleRate : T;
  spec_maximumBlockSize : Z;
  spec_numChannels : Z
}.

(** [AudioBlock]: [getNumSamples ()] and one array per channel;
    [getChannelPointer (ch)] is valid for [numSamples] samples. *)
Record AudioBlock : Type := mkBlock {
  numSamples : nat;
  channels : list (list T)
}.

Definition getNumChannels (b : AudioBlock) : nat := length (channels b).

Definition wf_block (b : AudioBlock) : Prop :=
  Forall (fun c => length c = numSamples b) (channels b).

(** [dst = block.getChannelPointer (ch); dst[i] = v] *)
Definition block_write (b : AudioBlock) (ch i : nat) (v : T) : AudioBlock :=
  mkBlock (numSamples b)
          (list_set (channels b) ch (list_set (nth ch (channels b) []) i v)).

(** [ProcessContext]: what [process] asks of it. *)
Record ProcessContext : Type := mkContext {
  outputBlock : AudioBlock;
  inputNumChannels : nat;
  usesSeparateInputAndOutputBlocks : bool
}.

(** *** The oscillator *)

Record Oscillator : Type := mkOscillator {
  generator : option (T -> T);            (* std::function, empty or set *)
  lookupTable : ScopedPointer LookupTableTransform;
  rampBuffer : list T;
  frequency : LinearSmoothedValue;
  sampleRate : T;
  pos : T
}.

(** [Oscillator ()] with the member initialisers. *)
Definition Oscillator_default : Oscillator :=
  mkOscillator None None [] (smoothed_init num_440) num_48000 num_zero.

Definition isInitialised (o : Oscillator) : bool :=
  match generator o with Some _ => true | None => false end.

(** [initialise]: the new state and the tables deleted by the call. *)
Definition initialise (function : T -> T) (lookupTableNumPoints : nat) (o : Oscillator)
  : Oscillator * list LookupTableTransform :=
  if negb (Nat.eqb lookupTableNumPoints 0) then
    let table := lut_new function num_negPi num_pi lookupTableNumPoints in
    let '(owner, deleted) := sp_assign (lookupTable o) table in
    (mkOscillator (Some (fun x => lut_call table x)) owner
                  (rampBuffer o) (frequency o) (sampleRate o) (pos o),
     deleted)
  else
    (mkOscillator (Some function) (lookupTable o)
                  (rampBuffer o) (frequency o) (sampleRate o) (pos o),
     []).

(** [Oscillator (function, lookupTableNumPoints)] *)
Definition Oscillator_with (function : T -> T) (lookupTableNumPoints : nat) : Oscillator :=
  fst (initialise function lookupTableNumPoints Oscillator_default).

Definition setFrequency (newFrequency : T) (force : bool) (o : Oscillator) : Oscillator :=
  mkOscillator (generator o) (lookupTable o) (rampBuffer o)
               (setValue (frequency o) newFrequency force) (sampleRate o) (pos o).

Definition getFrequency (o : Oscillator) : T := getTargetValue (frequency o).

Definition reset (o : Oscillator) : Oscillator :=
  mkOscillator (generator o) (lookupTable o) (rampBuffer o)
               (if num_ltb num_zero (sampleRate o)
                then smoothed_reset (frequency o) (sampleRate o) num_rampLength
                else frequency o)
               (sampleRate o) num_zero.

Definition prepare (spec : ProcessSpec) (o : Oscillator) : Oscillator :=
  reset (mkOscillator (generator o) (lookupTable o)
                      (resize num_zero (Z.to_nat (cast_int (spec_maximumBlockSize spec)))
                              (rampBuffer o))
                      (frequency o) (spec_sampleRate spec) (pos o)).

Local Open Scope outcome_scope.

(** [processSample]: the sample and the new state. *)
Definition processSample (o : Oscillator) : Outcome (T * Oscillator) :=
  match generator o with
  | None => ContractViolation                     (* jassert (isInitialised()) *)
  | Some g =>
      let '(f, frequency') := getNextValue (frequency o) in
      let increment := num_twoPi * f / sampleRate o in
      let value := g (pos o - num_pi) in
      Done (value,
            mkOscillator (generator o) (lookupTable o) (rampBuffer o) frequency'
                         (sampleRate o)
                         (num_fmod (pos o + increment) num_twoPi))
  end.

(** One turn of the staging loop of [process] (ramping branch):
    [buffer[i] = pos - pi; pos = fmod (pos + baseIncrement * getNextValue (), twoPi)]. *)
Definition stage_phase (baseIncrement : T) (i : nat) (o : Oscillator) : Outcome Oscillator :=
  buffer <- scratch_write (rampBuffer o) i (pos o - num_pi) ;;
  let '(f, frequency') := getNextValue (frequency o) in
  Done (mkOscillator (generator o) (lookupTable o) buffer frequency' (sampleRate o)
                     (num_fmod (pos o + baseIncrement * f) num_twoPi)).

(** [dst[i] = generator (buffer[i])] *)
Definition fill_from_scratch (g : T -> T) (buffer : list T) (ch i : nat) (b : AudioBlock)
  : Outcome AudioBlock :=
  x <- scratch_read buffer i ;;
  Done (block_write b ch i (g x)).

(** The body of the channel loop of the ramping branch. *)
Definition fill_channel_ramping (g : T -> T) (buffer : list T) (len ch : nat) (b : AudioBlock)
  : Outcome AudioBlock :=
  for_range 0 len (fill_from_scratch g buffer ch) b.

(** [dst[i] = generator (p - pi); p = fmod (p + freq, twoPi)] on the local [p]. *)
Definition walk_phase (g : T -> T) (freq : T) (ch i : nat) (st : T * AudioBlock)
  : Outcome (T * AudioBlock) :=
  let '(p, b) := st in
  Done (num_fmod (p + freq) num_twoPi, block_write b ch i (g (p - num_pi))).

(** The body of the channel loop of the steady branch: [auto p = pos] and
    the sample loop. *)
Definition fill_channel_steady (g : T -> T) (freq p0 : T) (len ch : nat) (b : AudioBlock)
  : Outcome AudioBlock :=
  st <- for_range 0 len (walk_phase g freq ch) (p0, b) ;;
  Done (snd st).

(** The condition of the second assertion of [process]:
    [getInputBlock ().getNumChannels () == 0 || ! usesSeparateInputAndOutputBlocks ()]. *)
Definition output_only (context : ProcessContext) : bool :=
  Nat.eqb (inputNumChannels context) 0
  || negb (usesSeparateInputAndOutputBlocks context).

(** [process]: the new state and the output block after the call. *)
Definition process (context : ProcessContext) (o : Oscillator)
  : Outcome (Oscillator * AudioBlock) :=
  match generator o with
  | None => ContractViolation                     (* jassert (isInitialised()) *)
  | Some g =>
      let outBlock := outputBlock context in
      jassert (output_only context) ;;;
      jassert (Nat.leb (numSamples outBlock) (length (rampBuffer o))) ;;;
      let len := numSamples outBlock in
      let numChannels := getNumChannels outBlock in
      let baseIncrement := num_twoPi / sampleRate o in
      if isSmoothing (frequency o) then
        o' <- for_range 0 len (stage_phase baseIncrement) o ;;
        b' <- for_range 0 numChannels
                (fill_channel_ramping g (rampBuffer o') len) outBlock ;;
        Done (o', b')
      else
        let '(f, frequency') := getNextValue (frequency o) in
        let freq := baseIncrement * f in
        b' <- for_range 0 numChannels
                (fill_channel_steady g freq (pos o) len) outBlock ;;
        Done (mkOscillator (generator o) (lookupTable o) (rampBuffer o) frequency'
                           (sampleRate o)
                           (num_fmod (pos o + freq * num_ofNat len) num_twoPi),
              b')
  end.

(** [count] consecutive calls of [processSample], collecting the samples. *)
Fixpoint processSamples (count : nat) (o : Oscillator) : Outcome (list T * Oscillator) :=
  match count with
  | O => Done ([], o)
  | Datatypes.S count' =>
      r <- processSample o ;;
      rest <- processSamples count' (snd r) ;;
      Done (fst r :: fst rest, snd rest)
  end.

(** A client's calls on one oscillator. *)
Inductive Call : Type :=
| CallSetFrequency (newFrequency : T) (force : bool)
| CallReset
| CallProcessSample
| CallProcess (context : ProcessContext).

Definition call (c : Call) (o : Oscillator) : Outcome Oscillator :=
  match c with
  | CallSetFrequency f force => Done (setFrequency f force o)
  | CallReset => Done (reset o)
  | CallProcessSample => r <- processSample o ;; Done (snd r)
  | CallProcess context => r <- process context o ;; Done (fst r)
  end.

Fixpoint calls (cs : list Call) (o : Oscillator) : Outcome Oscillator :=
  match cs with
  | [] => Done o
  | c :: cs' => o' <- call c o ;; calls cs' o'
  end.

(** *** Closed forms of the loops *)

(** One wrap-around advance of a phase. *)
Definition advance (increment p : T) : T := num_fmod (p + increment) num_twoPi.

(** The phase after [n] advances by a constant increment. *)
Fixpoint phase_after (increment : T) (n : nat) (p : T) : T :=
  match n with
  | O => p
  | Datatypes.S n' => phase_after increment n' (advance increment p)
  end.

(** The phases of [n] consecutive samples at a constant increment. *)
Fixpoint phase_walk (increment : T) (n : nat) (p : T) : list T :=
  match n with
  | O => []
  | Datatypes.S n' => p :: phase_walk increment n' (advance increment p)
  end.

Definition steady_samples (g : T -> T) (increment : T) (n : nat) (p : T) : list T :=
  map (fun q => g (q - num_pi)) (phase_walk increment n p).

(** [n] turns of the staging loop: the generator arguments staged, the
    smoothing state and the phase reached. *)
Fixpoint ramp_walk (baseIncrement : T) (n : nat) (s : LinearSmoothedValue) (p : T)
  : list T * (LinearSmoothedValue * T) :=
  match n with
  | O => ([], (s, p))
  | Datatypes.S n' =>
      let '(f, s') := getNextValue s in
      let '(staged, final) := ramp_walk baseIncrement n' s' (advance (baseIncrement * f) p) in
      (p - num_pi :: staged, final)
  end.

(** The constant increment of the steady branch:
    [baseIncrement * frequency.getNextValue ()]. *)
Definition steady_increment (o : Oscillator) : T :=
  num_twoPi / sampleRate o * fst (getNextValue (frequency o)).

(** The state a completed [process] call of [len] samples leaves. *)
Definition process_state (o : Oscillator) (len : nat) : Oscillator :=
  if isSmoothing (frequency o) then
    let w := ramp_walk (num_twoPi / sampleRate o) len (frequency o) (pos o) in
    mkOscillator (generator o) (lookupTable o)
                 (overwrite (rampBuffer o) 0 (fst w))
                 (fst (snd w)) (sampleRate o) (snd (snd w))
  else
    mkOscillator (generator o) (lookupTable o) (rampBuffer o)
                 (snd (getNextValue (frequency o))) (sampleRate o)
                 (num_fmod (pos o + steady_increment o * num_ofNat len) num_twoPi).

(** The samples a completed [process] call of [len] samples stores in a
    channel. *)
Definition process_samples (g : T -> T) (o : Oscillator) (len : nat) : list T :=
  if isSmoothing (frequency o) then
    map g (fst (ramp_walk (num_twoPi / sampleRate o) len (frequency o) (pos o)))
  else
    steady_samples g (steady_increment o) len (pos o).

(** [n] calls of [getNextValue]. *)
Fixpoint smoothed_after (n : nat) (s : LinearSmoothedValue) : LinearSmoothedValue :=
  match n with
  | O => s
  | Datatypes.S n' => smoothed_after n' (snd (getNextValue s))
  end.

End Model.

Arguments LinearSmoothedValue : clear implicits.
Arguments ProcessSpec : clear implicits.
Arguments AudioBlock : clear implicits.
Arguments ProcessContext : clear implicits.
Arguments Call : clear implicits.
Arguments Oscillator T {cache}.

(** ** Exact arithmetic: [NumericType := Q] *)

Open Scope Q_scope.

(** Truncation toward zero, the integer quotient [std::fmod] removes. *)
Definition Qtrunc (q : Q) : Z :=
  if Qle_bool 0 q then Qfloor q else Qceiling q.

(** [std::fmod (x, y)]: [x - n * y] for [n] the quotient [x / y] truncated
    toward zero.  The C function is exact on finite arguments with [y]
    non-zero, which is where this definition is used. *)
Definition Qfmod (x y : Q) : Q := x - y * inject_Z (Qtrunc (x / y)).

Definition Qltb (x y : Q) : bool :=
  match x ?= y with Lt => true | _ => false end.

(** The constants are the binary64 values of the C++ literals, as rationals:
    [pi = 0x1.921fb54442d18p+1], [twoPi = 0x1.921fb54442d18p+2],
    [0.05 = 0x1.999999999999ap-5]. *)
#[export] Instance Numeric_Q : Numeric Q := {
  num_zero := 0;
  num_pi := 884279719003555 # 281474976710656;
  num_negPi := - (884279719003555 # 281474976710656);
  num_twoPi := 884279719003555 # 140737488355328;
  num_440 := 440;
  num_48000 := 48000;
  num_rampLength := 3602879701896397 # 72057594037927936;
  num_add := Qplus;
  num_sub := Qminus;
  num_mul := Qmult;
  num_div := Qdiv;
  num_fmod := Qfmod;
  num_ltb := Qltb;
  num_eqb := Qeq_bool;
  num_ofNat := fun n => inject_Z (Z.of_nat n);
  num_ofInt := inject_Z;
  num_floor := Qfloor
}.

Close Scope Q_scope.

(** A cache for running examples: it keeps what it was built from and
    answers with the function itself (an approximation with no error). *)
Record TableOf (T : Type) : Type := mkTable {
  table_function : T -> T;
  table_min : T;
  table_max : T;
  table_numPoints : nat
}.

#[export] Instance Cache_TableOf (T : Type) : ApproximationCache T := {
  LookupTableTransform := TableOf T;
  lut_new := @mkTable T;
  lut_call := fun table x => table_function table x
}.

(** ** IEEE-754 binary64: [NumericType := double] *)

(** Conversion of an integer to the nearest double (ties to even). *)
Definition float_ofZ (z : Z) : float :=
  SF2Prim (binary_normalize prec emax z 0 false).

(** [std::floor] followed by the conversion to an integer; 0 where C leaves
    the conversion undefined (NaN and the infinities). *)
Definition float_floor (x : float) : Z :=
  match Prim2SF x with
  | S754_finite s m e =>
      let n := if s then Zneg m else Zpos m in
      if (0 <=? e)%Z then (n * 2 ^ e)%Z else (n / 2 ^ (- e))%Z
  | _ => 0%Z
  end.

(** [std::fmod] on doubles (C11 7.12.10.1, F.10.7.1): NaN when [x] is infinite
    or [y] is zero, [x] when [y] is infinite or [x] is zero; otherwise the
    exact value [x - n * y], [n] the truncated quotient, with the sign of [x].
    Both magnitudes are brought to the common exponent [e] and the remainder
    is taken on the integer mantissas. *)
Definition float_fmod (x y : float) : float :=
  match Prim2SF x, Prim2SF y with
  | S754_nan, _ | _, S754_nan => nan
  | S754_infinity _, _ => nan
  | _, S754_zero _ => nan
  | S754_zero _, _ => x
  | _, S754_infinity _ => x
  | S754_finite sx mx ex, S754_finite _ my ey =>
      let e := Z.min ex ey in
      let X := (Zpos mx * 2 ^ (ex - e))%Z in
      let Y := (Zpos my * 2 ^ (ey - e))%Z in
      let R := (X mod Y)%Z in
      SF2Prim (binary_normalize prec emax (if sx then (- R)%Z else R) e sx)
  end.

#[export] Instance Numeric_float : Numeric float := {
  num_zero := 0%float;
  num_pi := 0x1.921fb54442d18p+1%float;
  num_negPi := PrimFloat.mul (-1)%float 0x1.921fb54442d18p+1%float;
  num_twoPi := 0x1.921fb54442d18p+2%float;
  num_440 := 440%float;
  num_48000 := 48000%float;
  num_rampLength := 0x1.999999999999ap-5%float;
  num_add := PrimFloat.add;
  num_sub := PrimFloat.sub;
  num_mul := PrimFloat.mul;
  num_div := PrimFloat.div;
  num_fmod := float_fmod;
  num_ltb := PrimFloat.ltb;
  num_eqb := PrimFloat.eqb;
  num_ofNat := fun n => float_ofZ (Z.of_nat n);
  num_ofInt := float_ofZ;
  num_floor := float_floor
}.

(** ** Predicates of the exact model *)

Section ExactModel.

Context {cache : ApproximationCache Q}.

Local Open Scope Q_scope.

(** The phase lies in [[0, twoPi)]. *)
Definition phase_in_range (o : Oscillator Q) : Prop :=
  0 <= pos o < num_twoPi.

(** The phase is what a wrap leaves: strictly within one period of zero. *)
Definition phase_wrapped (o : Oscillator Q) : Prop :=
  - num_twoPi < pos o < num_twoPi.

(** A smoothing state between non-negative values: the current value and
    the target are non-negative, and a ramp in progress ends on the target. *)
Definition smoothing_nonneg (s : LinearSmoothedValue Q) : Prop :=
  0 <= target s
  /\ 0 <= currentValue s
  /\ ((0 < countdown s)%Z ->
      currentValue s + inject_Z (countdown s) * step s == target s).


(** The invariant of processing with a positive sample rate and
    non-negative frequencies. *)
Definition exact_invariant (o : Oscillator Q) : Prop :=
  0 < sampleRate o /\ phase_in_range o /\ smoothing_nonneg (frequency o).

End ExactModel.

(** ** Example data *)

(** A sawtooth over one period, [-1] at [-pi] rising to [1] at [pi]. *)
Definition sawtooth {T : Type} {numeric : Numeric T} (x : T) : T :=
  num_div x num_pi.

Definition example_spec {T : Type} {numeric : Numeric T} : ProcessSpec T :=
  mkSpec num_48000 8 2.

(** A prepared oscillator on the sawtooth, evaluated directly. *)
Definition example_oscillator {T : Type} {numeric : Numeric T} : Oscillator T :=
  prepare example_spec (Oscillator_with sawtooth 0).

(** Two channels of three samples, holding arbitrary earlier contents. *)
Definition example_block {T : Type} {numeric : Numeric T} : AudioBlock T :=
  mkBlock 3 [[num_440; num_440; num_440]; [num_pi; num_zero; num_pi]].

Definition example_context {T : Type} {numeric : Numeric T} : ProcessContext T :=
  mkContext example_block 0 false.

(** The same oscillator with a ramp to 880 Hz in progress. *)
Definition example_ramping_oscillator {T : Type} {numeric : Numeric T} : Oscillator T :=
  setFrequency (num_add num_440 num_440) false example_oscillator.

(** One channel of three samples. *)
Definition example_mono_context {T : Type} {numeric : Numeric T} : ProcessContext T :=
  mkContext (mkBlock 3 [[num_440; num_440; num_440]]) 0 false.

(** Two channels of no samples. *)
Definition example_empty_context {T : Type} {numeric : Numeric T} : ProcessContext T :=
  mkContext (mkBlock 0 [[]; []]) 0 false.

(** One channel of nine samples, one more than [example_spec] declares. *)
Definition example_long_context {T : Type} {numeric : Numeric T} : ProcessContext T :=
  mkContext (mkBlock 9 [repeat num_zero 9]) 0 false.

(** [setFrequency (-440, true)] followed by one [processSample]. *)
Definition negative_frequency_calls {T : Type} {numeric : Numeric T} : list (Call T) :=
  [CallSetFrequency (num_sub num_zero num_440) true; CallProcessSample].

(** A session that sets no negative frequency: a ramp to 880 Hz, a block,
    a sample. *)
Definition nonneg_frequency_calls : list (Call Q) :=
  [CallSetFrequency 880%Q false; CallProcess example_context; CallProcessSample].

(** In binary64: 1 kHz at 48 kHz, so that 48 samples make one period. *)
Definition kilohertz_oscillator : Oscillator float :=
  setFrequency 1000%float true
    (prepare (mkSpec 48000%float 64 1) (Oscillator_with sawtooth 0)).

Definition kilohertz_context : ProcessContext float :=
  mkContext (mkBlock 48 [repeat 0%float 48]) 0 false.

(** In binary64: 300 Hz at 8 kHz, where the two ways of computing the
    increment round differently. *)
Definition seam_oscillator : Oscillator float :=
  setFrequency 300%float true
    (prepare (mkSpec 8000%float 128 1) (Oscillator_with sawtooth 0)).

Definition seam_context : ProcessContext float :=
  mkContext (mkBlock 81 [repeat 0%float 81]) 0 false.




(** In binary64: prepared with the sample rate 0. *)
Definition unrated_oscillator : Oscillator float :=
  prepare (mkSpec 0%float 8 1) (Oscillator_with sawtooth 0).

(** In binary64: 2^1023 Hz at the sample rate 1. *)
Definition overflow_oscillator : Oscillator float :=
  setFrequency 0x1p1023%float true
    (prepare (mkSpec 1%float 8 1) (Oscillator_with sawtooth 0)).

(** ** Further closed forms *)

Section Walks.

Context {T : Type} {numeric : Numeric T} {cache : ApproximationCache T}.

Local Open Scope num_scope.

(** The generator arguments of a completed [process] call of [len]
    samples, the same for every channel. *)
Definition process_arguments (o : Oscillator T) (len : nat) : list T :=
  if isSmoothing (frequency o) then
    fst (ramp_walk (num_twoPi / sampleRate o) len (frequency o) (pos o))
  else
    map (fun q => q - num_pi) (phase_walk (steady_increment o) len (pos o)).

(** [n] calls of [processSample] at the sample rate [rate]: the generator
    arguments, the smoothing state and the phase reached. *)
Fixpoint sample_walk (rate : T) (n : nat) (s : LinearSmoothedValue T) (p : T)
  : list T * (LinearSmoothedValue T * T) :=
  match n with
  | O => ([], (s, p))
  | Datatypes.S n' =>
      let '(f, s') := getNextValue s in
      let '(args, final) := sample_walk rate n' s' (advance (num_twoPi * f / rate) p) in
      (p - num_pi :: args, final)
  end.

(** An output-only context on a block of [numChannels] channels of [len]
    samples, all zero. *)
Definition silent_context (numChannels len : nat) : ProcessContext T :=
  mkContext (mkBlock len (repeat (repeat num_zero len) numChannels)) 0 false.

(** A call whose assertions hold on an initialised oscillator with a
    scratch buffer of [size] entries. *)
Definition call_accepted (size : nat) (c : Call T) : bool :=
  match c with
  | CallProcess context =>
      output_only context && Nat.leb (numSamples (outputBlock context)) size
  | _ => true
  end.

End Walks.

(** 1 kHz at 48 kHz, so that 48 samples make one period; blocks of up to
    64 samples. *)
Definition period_oscillator {T : Type} {numeric : Numeric T} : Oscillator T :=
  setFrequency (num_ofNat 1000) true
    (prepare (mkSpec num_48000 64 1) (Oscillator_with sawtooth 0)).

(** * Properties *)

(** ** Arrays *)

Lemma list_set_length {A : Type} (l : list A) (i : nat) (v : A) :
  length (list_set l i v) = length l.
Proof.
  revert i; induction l as [|h t IH]; intros [|i]; simpl; auto.
Qed.

Lemma list_set_middle {A : Type} (pre : list A) (x v : A) (suf : list A) :
  list_set (pre ++ x :: suf) (length pre) v = pre ++ v :: suf.
Proof.
  induction pre as [|h t IH]; simpl; [reflexivity|now rewrite IH].
Qed.

Lemma list_set_nth {A : Type} (l : list A) (i : nat) (d : A) :
  list_set l i (nth i l d) = l.
Proof.
  revert i; induction l as [|h t IH]; intros [|i]; simpl; auto.
  now rewrite IH.
Qed.

Lemma nth_list_set {A : Type} (l : list A) (i : nat) (v d : A) :
  i < length l -> nth i (list_set l i v) d = v.
Proof.
  revert i; induction l as [|h t IH]; intros [|i] Hi; simpl in *; try lia; auto.
  apply IH; lia.
Qed.

Lemma list_set_twice {A : Type} (l : list A) (i : nat) (a b : A) :
  list_set (list_set l i a) i b = list_set l i b.
Proof.
  revert i; induction l as [|h t IH]; intros [|i]; simpl; auto.
  now rewrite IH.
Qed.

Lemma overwrite_length {A : Type} (vs l : list A) (i : nat) :
  length (overwrite l i vs) = length l.
Proof.
  revert l i; induction vs as [|v vs IH]; intros l i; simpl; [reflexivity|].
  now rewrite IH, list_set_length.
Qed.

(** Writing [vs] over a window of the same length replaces the window. *)
Lemma overwrite_window {A : Type} (vs pre old suf : list A) :
  length old = length vs ->
  overwrite (pre ++ old ++ suf) (length pre) vs = pre ++ vs ++ suf.
Proof.
  revert pre old; induction vs as [|v vs IH]; intros pre [|x old] Hlen;
    simpl in Hlen; try discriminate; [reflexivity|].
  cbn [overwrite app].
  rewrite list_set_middle.
  replace (pre ++ v :: old ++ suf) with ((pre ++ [v]) ++ old ++ suf)
    by (rewrite <- app_assoc; reflexivity).
  replace (Datatypes.S (length pre)) with (length (pre ++ [v]))
    by (rewrite length_app; simpl; lia).
  rewrite IH by lia.
  rewrite <- app_assoc; reflexivity.
Qed.

Lemma overwrite_all {A : Type} (vs l : list A) :
  length l = length vs -> overwrite l 0 vs = vs.
Proof.
  intro Hlen.
  generalize (@overwrite_window A vs [] l [] Hlen); simpl.
  now rewrite !app_nil_r.
Qed.

Lemma overwrite_prefix {A : Type} (vs l : list A) :
  length vs <= length l ->
  overwrite l 0 vs = vs ++ skipn (length vs) l.
Proof.
  intro Hlen.
  rewrite <- (firstn_skipn (length vs) l) at 1.
  apply (@overwrite_window A vs [] (firstn (length vs) l) (skipn (length vs) l)).
  rewrite length_firstn; lia.
Qed.

Lemma overwrite_repeat_all {A : Type} (l : list A) (v : A) :
  overwrite l 0 (repeat v (length l)) = repeat v (length l).
Proof. apply overwrite_all; now rewrite repeat_length. Qed.

Lemma Forall_list_set {A : Type} (P : A -> Prop) (l : list A) (i : nat) (v : A) :
  Forall P l -> P v -> Forall P (list_set l i v).
Proof.
  intros Hl Hv; revert i; induction Hl as [|h t Hh Ht IH]; intros [|i]; simpl;
    constructor; auto.
Qed.

Lemma skipn_nth_error {A : Type} (l : list A) (i : nat) (x : A) :
  nth_error l i = Some x -> skipn i l = x :: skipn (Datatypes.S i) l.
Proof.
  revert i; induction l as [|h t IH]; intros [|i] H; simpl in *; try discriminate.
  - now inversion H.
  - now apply IH.
Qed.

(** ** The loops of [process], for every numeric type *)

Section Loops.

Context {T : Type} {numeric : Numeric T} {cache : ApproximationCache T}.

Local Open Scope num_scope.

Lemma block_eta (b : AudioBlock T) : mkBlock (numSamples b) (channels b) = b.
Proof. now destruct b. Qed.

Lemma wf_block_channel (b : AudioBlock T) (ch : nat) :
  wf_block b -> ch < length (channels b) ->
  length (nth ch (channels b) []) = numSamples b.
Proof.
  unfold wf_block; rewrite Forall_forall; intros Hwf Hch.
  apply Hwf, nth_In, Hch.
Qed.

Lemma phase_walk_length (increment : T) (n : nat) (p : T) :
  length (phase_walk increment n p) = n.
Proof. revert p; induction n as [|n IH]; intro p; simpl; auto. Qed.

Lemma steady_samples_length (g : T -> T) (increment : T) (n : nat) (p : T) :
  length (steady_samples g increment n p) = n.
Proof. unfold steady_samples; now rewrite length_map, phase_walk_length. Qed.

Lemma ramp_walk_length (base : T) (n : nat) (s : LinearSmoothedValue T) (p : T) :
  length (fst (ramp_walk base n s p)) = n.
Proof.
  revert s p; induction n as [|n IH]; intros s p; simpl; [reflexivity|].
  destruct (getNextValue s) as [f s'].
  specialize (IH s' (advance (base * f) p)).
  destruct (ramp_walk base n s' (advance (base * f) p)) as [staged final].
  simpl in *; now rewrite IH.
Qed.

Lemma ramp_walk_smoothed (base : T) (n : nat) (s : LinearSmoothedValue T) (p : T) :
  fst (snd (ramp_walk base n s p)) = smoothed_after n s.
Proof.
  revert s p; induction n as [|n IH]; intros s p; simpl; [reflexivity|].
  destruct (getNextValue s) as [f s'] eqn:E.
  specialize (IH s' (advance (base * f) p)).
  destruct (ramp_walk base n s' (advance (base * f) p)) as [staged final].
  simpl in *; exact IH.
Qed.

(** The sample loop of the steady branch on channel [ch]. *)
Lemma walk_phase_loop (g : T -> T) (inc : T) (ch : nat) :
  forall (n i : nat) (p : T) (b : AudioBlock T),
    ch < length (channels b) ->
    for_range i n (walk_phase g inc ch) (p, b)
    = Done (phase_after inc n p,
            mkBlock (numSamples b)
                    (list_set (channels b) ch
                       (overwrite (nth ch (channels b) []) i
                                  (steady_samples g inc n p)))).
Proof.
  induction n as [|n IH]; intros i p b Hch.
  - simpl. now rewrite list_set_nth, block_eta.
  - cbn [for_range walk_phase bind].
    rewrite IH by (simpl; now rewrite list_set_length).
    unfold block_write; cbn [numSamples channels].
    rewrite nth_list_set by assumption.
    now rewrite list_set_twice.
Qed.

Lemma fill_channel_steady_spec (g : T -> T) (inc p0 : T) (ch : nat) (b : AudioBlock T) :
  wf_block b -> ch < length (channels b) ->
  fill_channel_steady g inc p0 (numSamples b) ch b
  = Done (mkBlock (numSamples b)
                  (list_set (channels b) ch
                            (steady_samples g inc (numSamples b) p0))).
Proof.
  intros Hwf Hch; unfold fill_channel_steady.
  rewrite walk_phase_loop by assumption; cbn [bind snd].
  rewrite overwrite_all; [reflexivity|].
  now rewrite steady_samples_length, wf_block_channel.
Qed.

(** The sample loop of the ramping branch on channel [ch]. *)
Lemma fill_from_scratch_loop (g : T -> T) (buffer : list T) (ch : nat) :
  forall (n i : nat) (b : AudioBlock T),
    ch < length (channels b) ->
    i + n <= length buffer ->
    for_range i n (fill_from_scratch g buffer ch) b
    = Done (mkBlock (numSamples b)
                    (list_set (channels b) ch
                       (overwrite (nth ch (channels b) []) i
                                  (map g (firstn n (skipn i buffer)))))).
Proof.
  induction n as [|n IH]; intros i b Hch Hlen.
  - simpl. now rewrite list_set_nth, block_eta.
  - cbn [for_range]; unfold fill_from_scratch at 1, scratch_read.
    destruct (nth_error buffer i) as [x|] eqn:Ex;
      [|apply nth_error_None in Ex; lia].
    cbn [bind].
    rewrite IH by (simpl; rewrite ?list_set_length; auto; lia).
    unfold block_write; cbn [numSamples channels].
    rewrite nth_list_set by assumption.
    rewrite list_set_twice.
    now rewrite (skipn_nth_error _ _ Ex).
Qed.

Lemma fill_channel_ramping_spec (g : T -> T) (buffer : list T) (ch : nat) (b : AudioBlock T) :
  wf_block b -> ch < length (channels b) -> numSamples b <= length buffer ->
  fill_channel_ramping g buffer (numSamples b) ch b
  = Done (mkBlock (numSamples b)
                  (list_set (channels b) ch
                            (map g (firstn (numSamples b) buffer)))).
Proof.
  intros Hwf Hch Hlen; unfold fill_channel_ramping.
  rewrite fill_from_scratch_loop by (auto; lia).
  rewrite skipn_O, overwrite_all; [reflexivity|].
  rewrite length_map, length_firstn, wf_block_channel by assumption; lia.
Qed.

(** A channel loop whose body stores the same samples [s] in each channel. *)
Lemma channel_loop (body : nat -> AudioBlock T -> Outcome (AudioBlock T))
      (s : list T) (len : nat) :
  length s = len ->
  (forall ch b, numSamples b = len -> wf_block b -> ch < length (channels b) ->
                body ch b = Done (mkBlock len (list_set (channels b) ch s))) ->
  forall (n i : nat) (b : AudioBlock T),
    numSamples b = len -> wf_block b -> i + n <= length (channels b) ->
    for_range i n body b
    = Done (mkBlock len (overwrite (channels b) i (repeat s n))).
Proof.
  intros Hs Hbody; induction n as [|n IH]; intros i b Hn Hwf Hlen.
  - simpl. now rewrite <- Hn, block_eta.
  - cbn [for_range repeat overwrite].
    rewrite Hbody by (auto; lia); cbn [bind].
    rewrite IH; cbn [numSamples channels]; auto.
    + unfold wf_block; cbn [numSamples channels].
      apply Forall_list_set; [|exact Hs].
      unfold wf_block in Hwf; now rewrite Hn in Hwf.
    + rewrite list_set_length; lia.
Qed.

Lemma channel_loop_all (body : nat -> AudioBlock T -> Outcome (AudioBlock T))
      (s : list T) (b : AudioBlock T) :
  length s = numSamples b ->
  (forall ch b', numSamples b' = numSamples b -> wf_block b' ->
                 ch < length (channels b') ->
                 body ch b' = Done (mkBlock (numSamples b) (list_set (channels b') ch s))) ->
  wf_block b ->
  for_range 0 (getNumChannels b) body b
  = Done (mkBlock (numSamples b) (repeat s (getNumChannels b))).
Proof.
  intros Hs Hbody Hwf; unfold getNumChannels.
  rewrite (@channel_loop body s (numSamples b) Hs Hbody) by (auto; lia).
  now rewrite overwrite_repeat_all.
Qed.

(** The staging loop of the ramping branch. *)
Lemma stage_phase_loop (base : T) :
  forall (n i : nat) (o : Oscillator T),
    i + n <= length (rampBuffer o) ->
    for_range i n (stage_phase base) o
    = Done (mkOscillator (generator o) (lookupTable o)
              (overwrite (rampBuffer o) i (fst (ramp_walk base n (frequency o) (pos o))))
              (fst (snd (ramp_walk base n (frequency o) (pos o))))
              (sampleRate o)
              (snd (snd (ramp_walk base n (frequency o) (pos o))))).
Proof.
  induction n as [|n IH]; intros i o Hlen.
  - simpl. now destruct o.
  - cbn [for_range ramp_walk]; unfold stage_phase at 1, scratch_write.
    destruct (Nat.ltb_spec i (length (rampBuffer o))) as [Hi|Hi]; [|lia].
    cbn [bind].
    destruct (getNextValue (frequency o)) as [f s'] eqn:Enext.
    cbn [bind].
    rewrite IH by (cbn [rampBuffer]; rewrite list_set_length; lia).
    cbn [generator lookupTable rampBuffer frequency sampleRate pos].
    unfold advance.
    destruct (ramp_walk base n s' (num_fmod (pos o + base * f) num_twoPi))
      as [staged [s'' p'']].
    reflexivity.
Qed.

(** A step of the smoothing primitive moves its cursor only: the target,
    the step and the ramp length stay as they were. *)
Lemma smoothed_after_frame (n : nat) :
  forall s : LinearSmoothedValue T,
    target (smoothed_after n s) = target s
    /\ step (smoothed_after n s) = step s
    /\ stepsToTarget (smoothed_after n s) = stepsToTarget s.
Proof.
  induction n as [|n IH]; intro s; cbn [smoothed_after]; [repeat split|].
  destruct (IH (snd (getNextValue s))) as [Ht [Hs Hn]].
  rewrite Ht, Hs, Hn; unfold getNextValue.
  destruct (countdown s <=? 0)%Z; repeat split.
Qed.

End Loops.

(** ** [process] as a whole, for every numeric type *)

Section ProcessFacts.

Context {T : Type} {numeric : Numeric T} {cache : ApproximationCache T}.

Local Open Scope num_scope.

(** A loop whose body completes on the indices it visits completes. *)
Lemma for_range_Done {S : Type} (body : nat -> S -> Outcome S) :
  forall (n i : nat) (s : S),
    (forall j s', i <= j < i + n -> exists s'', body j s' = Done s'') ->
    exists s'', for_range i n body s = Done s''.
Proof.
  induction n as [|n IH]; intros i s Hbody; simpl.
  - now exists s.
  - destruct (Hbody i s) as [s1 E1]; [lia|].
    rewrite E1; cbn [bind].
    apply IH; intros j s' Hj; apply Hbody; lia.
Qed.

Lemma fill_channel_steady_Done (g : T -> T) (inc p0 : T) (len ch : nat) (b : AudioBlock T) :
  exists b', fill_channel_steady g inc p0 len ch b = Done b'.
Proof.
  unfold fill_channel_steady.
  destruct (@for_range_Done _ (walk_phase g inc ch) len 0 (p0, b)) as [st E].
  - intros j [p b0] _; eexists; reflexivity.
  - rewrite E; eexists; reflexivity.
Qed.

Lemma fill_channel_ramping_Done (g : T -> T) (buffer : list T) (len ch : nat) (b : AudioBlock T) :
  len <= length buffer ->
  exists b', fill_channel_ramping g buffer len ch b = Done b'.
Proof.
  intro Hlen; unfold fill_channel_ramping.
  apply for_range_Done; intros j b0 Hj.
  unfold fill_from_scratch, scratch_read.
  destruct (nth_error buffer j) as [x|] eqn:Ex;
    [|apply nth_error_None in Ex; lia].
  eexists; reflexivity.
Qed.

(** The three ways a call of [process] can go.  It never leaves the scratch
    buffer; it stops at an assertion exactly when one of the three asserted
    conditions is false; otherwise it completes in the state [process_state]. *)
Lemma process_cases (context : ProcessContext T) (o : Oscillator T) :
  let len := numSamples (outputBlock context) in
  if isInitialised o && output_only context && Nat.leb len (length (rampBuffer o))
  then exists b, process context o = Done (process_state o len, b)
  else process context o = ContractViolation.
Proof.
  cbv zeta; unfold process, isInitialised, process_state.
  destruct (generator o) as [g|] eqn:Eg; [|reflexivity].
  destruct (output_only context); [|reflexivity].
  cbn [andb jassert bind].
  destruct (Nat.leb_spec (numSamples (outputBlock context)) (length (rampBuffer o)))
    as [Hlen|Hlen]; [|reflexivity].
  cbn [bind].
  destruct (isSmoothing (frequency o)).
  - rewrite stage_phase_loop by (simpl; lia); cbn [bind rampBuffer].
    destruct (@for_range_Done _
                (fill_channel_ramping g
                   (overwrite (rampBuffer o) 0
                      (fst (ramp_walk (num_twoPi / sampleRate o)
                              (numSamples (outputBlock context)) (frequency o) (pos o))))
                   (numSamples (outputBlock context)))
                (getNumChannels (outputBlock context)) 0 (outputBlock context))
      as [b' E].
    + intros j b0 _. apply fill_channel_ramping_Done.
      now rewrite overwrite_length.
    + rewrite E; cbn [bind]. rewrite ?Eg. now exists b'.
  - unfold steady_increment.
    destruct (getNextValue (frequency o)) as [f s'] eqn:Enext; cbn [fst snd].
    destruct (@for_range_Done _
                (fill_channel_steady g (num_twoPi / sampleRate o * f) (pos o)
                                     (numSamples (outputBlock context)))
                (getNumChannels (outputBlock context)) 0 (outputBlock context))
      as [b' E].
    + intros j b0 _. apply fill_channel_steady_Done.
    + rewrite E; cbn [bind]. rewrite ?Eg. now exists b'.
Qed.

(** A completed call leaves the state [process_state]. *)
Lemma process_Done_state (context : ProcessContext T) (o o' : Oscillator T) (b' : AudioBlock T) :
  process context o = Done (o', b') ->
  o' = process_state o (numSamples (outputBlock context)).
Proof.
  intro E; generalize (process_cases context o); cbv zeta.
  destruct (isInitialised o && output_only context
            && Nat.leb (numSamples (outputBlock context)) (length (rampBuffer o))).
  - intros [b E']; rewrite E in E'; now inversion E'.
  - intro E'; rewrite E in E'; discriminate.
Qed.

(** On a well-formed block a call that meets the three asserted conditions
    completes and stores [process_samples] in every channel. *)
Lemma process_Done (context : ProcessContext T) (o : Oscillator T) (g : T -> T) :
  let len := numSamples (outputBlock context) in
  generator o = Some g ->
  output_only context = true ->
  len <= length (rampBuffer o) ->
  wf_block (outputBlock context) ->
  process context o
  = Done (process_state o len,
          mkBlock len (repeat (process_samples g o len)
                              (getNumChannels (outputBlock context)))).
Proof.
  cbv zeta; intros Hg Hctx Hlen Hwf.
  unfold process, process_state, process_samples; rewrite Hg, Hctx.
  cbn [jassert bind].
  destruct (Nat.leb_spec (numSamples (outputBlock context)) (length (rampBuffer o)))
    as [_|Hgt]; [|lia].
  cbn [bind].
  destruct (isSmoothing (frequency o)).
  - rewrite stage_phase_loop by (simpl; lia); cbn [bind rampBuffer].
    set (w := ramp_walk (num_twoPi / sampleRate o) (numSamples (outputBlock context))
                        (frequency o) (pos o)).
    assert (Hw : length (fst w) = numSamples (outputBlock context))
      by apply ramp_walk_length.
    rewrite (@channel_loop_all T _ (map g (fst w)) (outputBlock context)).
    + cbn [bind]; rewrite ?Hg; reflexivity.
    + now rewrite length_map.
    + intros ch b0 Hn Hwf0 Hch.
      rewrite <- Hn, fill_channel_ramping_spec; auto.
      * rewrite overwrite_prefix by lia.
        rewrite Hn, <- Hw, firstn_app, Nat.sub_diag, firstn_all; simpl.
        now rewrite app_nil_r.
      * rewrite overwrite_length; lia.
    + assumption.
  - unfold steady_increment.
    destruct (getNextValue (frequency o)) as [f s'] eqn:Enext; cbn [fst snd].
    rewrite (@channel_loop_all T _
               (steady_samples g (num_twoPi / sampleRate o * f)
                               (numSamples (outputBlock context)) (pos o))
               (outputBlock context)).
    + cbn [bind]; rewrite ?Hg; reflexivity.
    + apply steady_samples_length.
    + intros ch b0 Hn Hwf0 Hch.
      now rewrite <- Hn, fill_channel_steady_spec.
    + assumption.
Qed.

End ProcessFacts.

(** ** Construction, initialisation and reset *)

Section Lifecycle.

Context {T : Type} {numeric : Numeric T} {cache : ApproximationCache T}.

Local Open Scope num_scope.

(** C9.  A default-constructed oscillator is not initialised, reports the
    frequency 440, stores the sample rate 48000 and the phase 0, before any
    call of [prepare] or [setFrequency]. *)
Theorem default_constructed_fields :
  isInitialised (T := T) Oscillator_default = false
  /\ getFrequency (T := T) Oscillator_default = num_440
  /\ sampleRate (T := T) Oscillator_default = num_48000
  /\ pos (T := T) Oscillator_default = num_zero.
Proof. repeat split. Qed.

(** What [initialise] does in each branch: with no table points the function
    itself becomes the generator and the table pointer is left as it was;
    otherwise a table over [-pi, pi] is built, the pointer takes it and
    deletes the table it held, and the generator queries the new table. *)
Lemma initialise_branches (function : T -> T) (numPoints : nat) (o : Oscillator T) :
  let table := lut_new function num_negPi num_pi numPoints in
  initialise function numPoints o
  = if Nat.eqb numPoints 0
    then (mkOscillator (Some function) (lookupTable o)
                       (rampBuffer o) (frequency o) (sampleRate o) (pos o),
          [])
    else (mkOscillator (Some (lut_call table)) (Some table)
                       (rampBuffer o) (frequency o) (sampleRate o) (pos o),
          match lookupTable o with Some old => [old] | None => [] end).
Proof.
  cbv zeta; unfold initialise, sp_assign.
  destruct (Nat.eqb numPoints 0); reflexivity.
Qed.

(** C6.  [reset] sets the phase to 0 whatever the sample rate is; the
    smoothing primitive is re-armed, with the 0.05 s ramp, exactly when the
    stored sample rate is positive and is left untouched otherwise; nothing
    else changes. *)
Theorem reset_rearms_iff_positive_rate (o : Oscillator T) :
  pos (reset o) = num_zero
  /\ frequency (reset o)
     = (if num_ltb num_zero (sampleRate o)
        then smoothed_reset (frequency o) (sampleRate o) num_rampLength
        else frequency o)
  /\ (num_ltb num_zero (sampleRate o) = false ->
      reset o = mkOscillator (generator o) (lookupTable o) (rampBuffer o)
                             (frequency o) (sampleRate o) num_zero)
  /\ generator (reset o) = generator o
  /\ lookupTable (reset o) = lookupTable o
  /\ rampBuffer (reset o) = rampBuffer o
  /\ sampleRate (reset o) = sampleRate o.
Proof.
  unfold reset; cbn; repeat split.
  intros ->; reflexivity.
Qed.

(** [processSample] on an initialised oscillator, as one equation. *)
Lemma processSample_Done (o : Oscillator T) (g : T -> T) :
  generator o = Some g ->
  processSample o
  = Done (g (pos o - num_pi),
          mkOscillator (generator o) (lookupTable o) (rampBuffer o)
                       (snd (getNextValue (frequency o)))
                       (sampleRate o)
                       (num_fmod (pos o
                                  + num_twoPi * fst (getNextValue (frequency o))
                                    / sampleRate o)
                                 num_twoPi)).
Proof.
  intro Hg; unfold processSample; rewrite Hg.
  now destruct (getNextValue (frequency o)).
Qed.

(** C4.  On an initialised oscillator [processSample] takes one step of the
    smoothing primitive to obtain the current frequency, returns the
    generator at the phase before the advance minus pi, and sets the phase
    to [fmod (pos + twoPi * currentFrequency / sampleRate, twoPi)]; the other
    fields stay as they were. *)
Theorem processSample_step (o : Oscillator T) (g : T -> T) :
  generator o = Some g ->
  let currentFrequency := fst (getNextValue (frequency o)) in
  let increment := num_twoPi * currentFrequency / sampleRate o in
  exists o' : Oscillator T,
    processSample o = Done (g (pos o - num_pi), o')
    /\ frequency o' = snd (getNextValue (frequency o))
    /\ pos o' = num_fmod (pos o + increment) num_twoPi
    /\ generator o' = generator o
    /\ lookupTable o' = lookupTable o
    /\ rampBuffer o' = rampBuffer o
    /\ sampleRate o' = sampleRate o.
Proof.
  intro Hg; cbv zeta.
  eexists; split; [apply (processSample_Done o Hg)|].
  repeat split.
Qed.

End Lifecycle.

(** ** Block processing: contract, frame and channels *)

Section BlockProcessing.

Context {T : Type} {numeric : Numeric T} {cache : ApproximationCache T}.

Local Open Scope num_scope.

(** A completed call met the three asserted conditions. *)
Lemma process_Done_inv (context : ProcessContext T) (o o' : Oscillator T) (b' : AudioBlock T) :
  process context o = Done (o', b') ->
  (exists g, generator o = Some g)
  /\ output_only context = true
  /\ numSamples (outputBlock context) <= length (rampBuffer o).
Proof.
  intro E; generalize (process_cases context o); cbv zeta; unfold isInitialised.
  destruct (generator o) as [g|]; cbn [andb];
    [|intro E'; rewrite E in E'; discriminate].
  destruct (output_only context); cbn [andb];
    [|intro E'; rewrite E in E'; discriminate].
  destruct (Nat.leb_spec (numSamples (outputBlock context)) (length (rampBuffer o)));
    [|intro E'; rewrite E in E'; discriminate].
  intros _; repeat split; eauto.
Qed.

Lemma process_state_frame (o : Oscillator T) (len : nat) :
  generator (process_state o len) = generator o
  /\ lookupTable (process_state o len) = lookupTable o
  /\ sampleRate (process_state o len) = sampleRate o
  /\ length (rampBuffer (process_state o len)) = length (rampBuffer o).
Proof.
  unfold process_state; destruct (isSmoothing (frequency o)); cbn;
    rewrite ?overwrite_length; repeat split.
Qed.

(** C7.  After a call of [process] on a block of any number of channels,
    in the ramping and in the steady branch alike, any two output channels
    hold the same sequence of [len] samples, and the block has as many
    channels as it had. *)
Theorem process_channels_identical
        (context : ProcessContext T) (o o' : Oscillator T) (b' : AudioBlock T) :
  wf_block (outputBlock context) ->
  process context o = Done (o', b') ->
  getNumChannels b' = getNumChannels (outputBlock context)
  /\ forall (i j : nat) (ci cj : list T),
       nth_error (channels b') i = Some ci ->
       nth_error (channels b') j = Some cj ->
       ci = cj /\ length ci = numSamples (outputBlock context).
Proof.
  intros Hwf E.
  destruct (process_Done_inv _ _ E) as [[g Hg] [Hctx Hlen]].
  rewrite (process_Done context o Hg Hctx Hlen Hwf) in E.
  inversion E; subst; clear E; cbn [channels getNumChannels].
  split; [apply repeat_length|].
  intros i j ci cj Hi Hj.
  apply nth_error_In, repeat_spec in Hi.
  apply nth_error_In, repeat_spec in Hj.
  subst; split; [reflexivity|].
  unfold process_samples; destruct (isSmoothing (frequency o)).
  - now rewrite length_map, ramp_walk_length.
  - apply steady_samples_length.
Qed.

(** C8.  A completed call of [process] leaves the generator, the lookup
    table, the sample rate and the size of the scratch buffer as they were;
    of the smoothing primitive it moves the cursor only, by [len] steps in
    the ramping branch and by one step in the steady branch, the target,
    the step and the ramp length staying as they were; the output block
    keeps its shape and every channel holds the [len] samples
    [process_samples], which are computed from the state alone; and the
    same state and block result from any other block of the same shape,
    whatever it held before. *)
Theorem process_frame
        (context : ProcessContext T) (o o' : Oscillator T) (b' : AudioBlock T) :
  wf_block (outputBlock context) ->
  process context o = Done (o', b') ->
  let len := numSamples (outputBlock context) in
  (generator o' = generator o
   /\ lookupTable o' = lookupTable o
   /\ sampleRate o' = sampleRate o
   /\ length (rampBuffer o') = length (rampBuffer o))
  /\ (frequency o'
      = smoothed_after (if isSmoothing (frequency o) then len else 1) (frequency o)
      /\ target (frequency o') = target (frequency o)
      /\ step (frequency o') = step (frequency o)
      /\ stepsToTarget (frequency o') = stepsToTarget (frequency o))
  /\ (exists g, generator o = Some g
                /\ length (process_samples g o len) = len
                /\ b' = mkBlock len (repeat (process_samples g o len)
                                            (getNumChannels (outputBlock context))))
  /\ (forall context2 : ProcessContext T,
         wf_block (outputBlock context2) ->
         output_only context2 = true ->
         numSamples (outputBlock context2) = len ->
         getNumChannels (outputBlock context2) = getNumChannels (outputBlock context) ->
         process context2 o = Done (o', b')).
Proof.
  intros Hwf E; cbv zeta.
  destruct (process_Done_inv _ _ E) as [[g Hg] [Hctx Hlen]].
  rewrite (process_Done context o Hg Hctx Hlen Hwf) in E.
  inversion E; subst; clear E.
  split; [apply process_state_frame|].
  assert (Hcursor : frequency (process_state o (numSamples (outputBlock context)))
                    = smoothed_after (if isSmoothing (frequency o)
                                      then numSamples (outputBlock context) else 1)
                                     (frequency o)).
  { unfold process_state; destruct (isSmoothing (frequency o)); cbn [frequency].
    - apply ramp_walk_smoothed.
    - reflexivity. }
  split; [split; [exact Hcursor|rewrite Hcursor; apply smoothed_after_frame]|].
  split.
  - exists g; repeat split; auto.
    unfold process_samples; destruct (isSmoothing (frequency o)).
    + now rewrite length_map, ramp_walk_length.
    + apply steady_samples_length.
  - intros context2 Hwf2 Hctx2 Hn2 Hc2.
    rewrite (process_Done context2 o Hg Hctx2) by (auto; lia).
    now rewrite Hn2, Hc2.
Qed.

(** [prepare] sizes the scratch buffer to the declared maximum. *)
Lemma prepare_rampBuffer_length (spec : ProcessSpec T) (o : Oscillator T) :
  (0 <= spec_maximumBlockSize spec < 2 ^ 31)%Z ->
  length (rampBuffer (prepare spec o)) = Z.to_nat (spec_maximumBlockSize spec).
Proof.
  intro Hmax; unfold prepare, reset, resize, cast_int; cbn [rampBuffer].
  rewrite Z.mod_small by lia.
  rewrite length_app, length_firstn, repeat_length.
  replace (spec_maximumBlockSize spec + 2 ^ 31 - 2 ^ 31)%Z
    with (spec_maximumBlockSize spec) by lia.
  lia.
Qed.

Lemma call_rampBuffer_length (c : Call T) (o o' : Oscillator T) :
  call c o = Done o' -> length (rampBuffer o') = length (rampBuffer o).
Proof.
  destruct c as [f force| | |context]; cbn [call].
  - intro E; inversion E; reflexivity.
  - intro E; inversion E; reflexivity.
  - unfold processSample.
    destruct (generator o); [|discriminate].
    destruct (getNextValue (frequency o)); cbn [bind snd].
    intro E; inversion E; reflexivity.
  - destruct (process context o) as [[o1 b1]| |] eqn:E1; cbn [bind fst];
      try discriminate.
    intro E; inversion E; subst.
    rewrite (process_Done_state _ _ E1).
    apply process_state_frame.
Qed.

Lemma calls_rampBuffer_length (cs : list (Call T)) :
  forall o o' : Oscillator T,
    calls cs o = Done o' -> length (rampBuffer o') = length (rampBuffer o).
Proof.
  induction cs as [|c cs IH]; intros o o' E; cbn [calls] in E.
  - inversion E; reflexivity.
  - destruct (call c o) as [o1| |] eqn:E1; cbn [bind] in E; try discriminate.
    rewrite (IH _ _ E), (call_rampBuffer_length _ _ E1); reflexivity.
Qed.


(** C2.  After [prepare] with a maximum block size, and whatever calls
    followed it, a call of [process] with a longer block stops at the
    assertion with a contract violation; no call of [process] leaves the
    scratch buffer; and a call within the maximum that meets the other two
    assertions completes. *)
Theorem process_block_size_contract
        (spec : ProcessSpec T) (o0 o : Oscillator T) (cs : list (Call T))
        (context : ProcessContext T) :
  (0 <= spec_maximumBlockSize spec < 2 ^ 31)%Z ->
  calls cs (prepare spec o0) = Done o ->
  let len := numSamples (outputBlock context) in
  ((spec_maximumBlockSize spec < Z.of_nat len)%Z ->
   process context o = ContractViolation)
  /\ process context o <> OutOfBounds
  /\ ((Z.of_nat len <= spec_maximumBlockSize spec)%Z ->
      isInitialised o = true -> output_only context = true ->
      exists b, process context o = Done (process_state o len, b)).
Proof.
  intros Hmax Hcalls; cbv zeta.
  assert (Hsize : length (rampBuffer o) = Z.to_nat (spec_maximumBlockSize spec)).
  { rewrite (calls_rampBuffer_length _ _ Hcalls).
    now apply prepare_rampBuffer_length. }
  generalize (process_cases context o); cbv zeta.
  destruct (Nat.leb_spec (numSamples (outputBlock context)) (length (rampBuffer o)))
    as [Hle|Hgt].
  - intro Hcases; split; [intro; lia|].
    split.
    + destruct (isInitialised o && output_only context && true).
      * destruct Hcases as [b E]; rewrite E; discriminate.
      * rewrite Hcases; discriminate.
    + intros _ Hinit Hctx; rewrite Hinit, Hctx in Hcases; exact Hcases.
  - rewrite andb_false_r; intro E.
    split; [intros _; exact E|].
    split; [rewrite E; discriminate|].
    intro; lia.
Qed.

End BlockProcessing.

Unset Implicit Arguments.

(** ** Exact arithmetic: [std::fmod] on rationals *)

(** Shows the operations of the instance [Numeric_Q] as the operations of
    [Q], leaving the constants folded. *)
Ltac exact_ops :=
  change (@num_add Q Numeric_Q) with Qplus in *;
  change (@num_sub Q Numeric_Q) with Qminus in *;
  change (@num_mul Q Numeric_Q) with Qmult in *;
  change (@num_div Q Numeric_Q) with Qdiv in *;
  change (@num_fmod Q Numeric_Q) with Qfmod in *;
  change (@num_zero Q Numeric_Q) with 0%Q in *;
  change (@num_eqb Q Numeric_Q) with Qeq_bool in *;
  change (@num_ltb Q Numeric_Q) with Qltb in *;
  change (@num_ofInt Q Numeric_Q) with inject_Z in *;
  change (@num_ofNat Q Numeric_Q) with (fun n : nat => inject_Z (Z.of_nat n)) in *;
  cbv beta in *.

Section ExactFmod.

Local Open Scope Q_scope.

#[export] Instance Qtrunc_comp : Proper (Qeq ==> eq) Qtrunc.
Proof.
  intros x y H; unfold Qtrunc.
  rewrite (Qleb_comp 0 0 (Qeq_refl 0) x y H).
  now rewrite (Qfloor_comp x y H), (Qceiling_comp x y H).
Qed.

#[export] Instance Qfmod_comp : Proper (Qeq ==> Qeq ==> Qeq) Qfmod.
Proof.
  intros x x' Hx y y' Hy; unfold Qfmod.
  assert (E : Qtrunc (x / y) = Qtrunc (x' / y'))
    by (apply Qtrunc_comp; rewrite Hx, Hy; reflexivity).
  rewrite E, Hx, Hy; reflexivity.
Qed.

Lemma Qdiv_sign_nonneg (x y : Q) : 0 < y -> 0 <= x / y -> 0 <= x.
Proof.
  intros Hy H.
  assert (E : x == x / y * y) by (field; lra).
  rewrite E; apply Qmult_le_0_compat; lra.
Qed.

Lemma Qdiv_sign_nonpos (x y : Q) : 0 < y -> x / y <= 0 -> x <= 0.
Proof.
  intros Hy H.
  assert (E : x == x / y * y) by (field; lra).
  assert (0 <= (- (x / y)) * y) by (apply Qmult_le_0_compat; lra).
  lra.
Qed.

(** The truncated quotient is the integer within one unit of [q] on the
    side of zero. *)
Lemma Qtrunc_unique (q : Q) (k : Z) :
  (0 <= q -> inject_Z k <= q < inject_Z k + 1) ->
  (q <= 0 -> inject_Z k - 1 < q <= inject_Z k) ->
  Qtrunc q = k.
Proof.
  intros Hpos Hneg; unfold Qtrunc.
  destruct (Qle_bool 0 q) eqn:E.
  - apply Qle_bool_iff in E; destruct (Hpos E) as [Hlo Hhi].
    apply Z.le_antisymm.
    + assert (H : (Qfloor q < k + 1)%Z).
      { rewrite Zlt_Qlt, inject_Z_plus.
        apply Qle_lt_trans with q; [apply Qfloor_le|exact Hhi]. }
      lia.
    + rewrite <- (Qfloor_Z k); now apply Qfloor_resp_le.
  - assert (Hq : q <= 0).
    { destruct (Qlt_le_dec q 0) as [H|H]; [lra|].
      apply Qle_bool_iff in H; congruence. }
    destruct (Hneg Hq) as [Hlo Hhi].
    apply Z.le_antisymm.
    + rewrite <- (Qceiling_Z k); now apply Qceiling_resp_le.
    + assert (H : (k - 1 < Qceiling q)%Z).
      { rewrite Zlt_Qlt. unfold Z.sub; rewrite inject_Z_plus, inject_Z_opp.
        apply Qlt_le_trans with q; [exact Hlo|apply Qle_ceiling]. }
      lia.
Qed.

(** [std::fmod (x, y)] is the one value congruent to [x] modulo [y], smaller
    than [y] in magnitude, on the side of zero where [x] is. *)
Lemma Qfmod_unique (x y r : Q) (k : Z) :
  0 < y ->
  r == x - y * inject_Z k ->
  (0 <= x -> 0 <= r < y) ->
  (x <= 0 -> - y < r <= 0) ->
  Qfmod x y == r.
Proof.
  intros Hy Hr Hpos Hneg; unfold Qfmod.
  rewrite (Qtrunc_unique (x / y) k); [now rewrite Hr| |].
  - intro Hq; apply Qdiv_sign_nonneg in Hq; [|exact Hy].
    specialize (Hpos Hq); split.
    + apply Qle_shift_div_l; [exact Hy|lra].
    + apply Qlt_shift_div_r; [exact Hy|lra].
  - intro Hq; apply Qdiv_sign_nonpos in Hq; [|exact Hy].
    specialize (Hneg Hq); split.
    + apply Qlt_shift_div_l; [exact Hy|lra].
    + apply Qle_shift_div_r; [exact Hy|lra].
Qed.

Lemma Qfmod_zero (y : Q) : Qfmod 0 y == 0.
Proof.
  unfold Qfmod.
  assert (E : 0 / y == 0) by (unfold Qdiv; ring).
  rewrite E; cbn; ring.
Qed.

Lemma Qfmod_spec (x y : Q) :
  0 < y ->
  exists k : Z,
    Qfmod x y == x - y * inject_Z k
    /\ (0 <= x -> 0 <= Qfmod x y < y)
    /\ (x <= 0 -> - y < Qfmod x y <= 0).
Proof.
  intro Hy.
  destruct (Q_dec x 0) as [[Hx|Hx]|Hx].
  - (* x < 0 *)
    exists (Qceiling (x / y)).
    assert (E : Qfmod x y == x - y * inject_Z (Qceiling (x / y))).
    { unfold Qfmod, Qtrunc.
      destruct (Qle_bool 0 (x / y)) eqn:Eb; [|reflexivity].
      apply Qle_bool_iff, Qdiv_sign_nonneg in Eb; [lra|exact Hy]. }
    split; [exact E|].
    split; [intro; lra|intros _].
    generalize (Qle_ceiling (x / y)) (Qceiling_lt (x / y)).
    unfold Z.sub; rewrite inject_Z_plus, inject_Z_opp.
    set (c := inject_Z (Qceiling (x / y))) in *; intros H1 H2.
    assert (E' : x == x / y * y) by (field; lra).
    assert (x / y * y <= c * y) by (apply Qmult_le_compat_r; lra).
    assert ((c + - inject_Z 1) * y < x / y * y) by (apply Qmult_lt_compat_r; lra).
    change (inject_Z 1) with 1 in *; clearbody c; lra.
  - (* 0 < x *)
    exists (Qfloor (x / y)).
    assert (E : Qfmod x y == x - y * inject_Z (Qfloor (x / y))).
    { unfold Qfmod, Qtrunc.
      destruct (Qle_bool 0 (x / y)) eqn:Eb; [reflexivity|].
      assert (Hq : 0 <= x / y) by (apply Qle_shift_div_l; lra).
      apply Qle_bool_iff in Hq; congruence. }
    split; [exact E|].
    split; [intros _|intro; lra].
    generalize (Qfloor_le (x / y)) (Qlt_floor (x / y)).
    rewrite inject_Z_plus.
    set (c := inject_Z (Qfloor (x / y))) in *; intros H1 H2.
    assert (E' : x == x / y * y) by (field; lra).
    assert (c * y <= x / y * y) by (apply Qmult_le_compat_r; lra).
    assert (x / y * y < (c + inject_Z 1) * y) by (apply Qmult_lt_compat_r; lra).
    change (inject_Z 1) with 1 in *; clearbody c; lra.
  - (* x == 0 *)
    exists 0%Z.
    assert (E : Qfmod x y == 0) by (rewrite Hx; apply Qfmod_zero).
    split; [rewrite E, Hx; cbn; ring|].
    split; intros _; rewrite E; lra.
Qed.

Lemma Qfmod_nonneg (x y : Q) : 0 < y -> 0 <= x -> 0 <= Qfmod x y < y.
Proof. intros Hy Hx; destruct (Qfmod_spec x y Hy) as [k [_ [H _]]]; auto. Qed.

Lemma Qfmod_bounded (x y : Q) : 0 < y -> - y < Qfmod x y < y.
Proof.
  intro Hy; destruct (Qfmod_spec x y Hy) as [k [_ [Hpos Hneg]]].
  destruct (Qlt_le_dec x 0) as [Hx|Hx].
  - assert (x <= 0) by lra. specialize (Hneg H); lra.
  - specialize (Hpos Hx); lra.
Qed.

Lemma Qfmod_small (x y : Q) : - y < x < y -> Qfmod x y == x.
Proof.
  intro Hx; apply Qfmod_unique with (k := 0%Z); [lra| |intro; lra|intro; lra].
  cbn; ring.
Qed.

(** Wrapping before an addition does not change the wrapped sum, as long as
    the unwrapped value has not left [(-y, y)] against the direction of the
    addend. *)
Lemma Qfmod_add_wrapped (a f y : Q) :
  0 < y ->
  (0 <= f -> - y < a) ->
  (f <= 0 -> a < y) ->
  Qfmod (Qfmod a y + f) y == Qfmod (a + f) y.
Proof.
  intros Hy Hup Hdown.
  destruct (Qfmod_spec a y Hy) as [ka [Ea [Hapos Haneg]]].
  destruct (Qfmod_spec (a + f) y Hy) as [ks [Es [Hspos Hsneg]]].
  assert (Hbound := Qfmod_bounded a y Hy).
  destruct (Qlt_le_dec (- y) a) as [Hlo|Hlo];
    destruct (Qlt_le_dec a y) as [Hhi|Hhi].
  - (* a itself is within the period *)
    rewrite (Qfmod_small a y) by lra; reflexivity.
  - (* y <= a, hence 0 <= f *)
    assert (Hf : 0 <= f) by (destruct (Qlt_le_dec f 0); [assert (f <= 0) by lra; specialize (Hdown H); lra|assumption]).
    assert (Ha : 0 <= a) by lra.
    specialize (Hapos Ha). assert (Hs : 0 <= a + f) by lra. specialize (Hspos Hs).
    apply Qfmod_unique with (k := (ks - ka)%Z); [exact Hy| | |].
    + unfold Z.sub; rewrite inject_Z_plus, inject_Z_opp, Es, Ea; ring.
    + intros _; exact Hspos.
    + intro H0.
      assert (E0 : Qfmod (a + f) y == Qfmod a y) by (apply Qfmod_comp; lra).
      lra.
  - (* a <= -y, hence f <= 0 *)
    assert (Hf : f <= 0) by (destruct (Qlt_le_dec 0 f); [assert (0 <= f) by lra; specialize (Hup H); lra|assumption]).
    assert (Ha : a <= 0) by lra.
    specialize (Haneg Ha). assert (Hs : a + f <= 0) by lra. specialize (Hsneg Hs).
    apply Qfmod_unique with (k := (ks - ka)%Z); [exact Hy| | |].
    + unfold Z.sub; rewrite inject_Z_plus, inject_Z_opp, Es, Ea; ring.
    + intro H0.
      assert (E0 : Qfmod (a + f) y == Qfmod a y) by (apply Qfmod_comp; lra).
      lra.
    + intros _; exact Hsneg.
  - lra.
Qed.

End ExactFmod.

(** ** Sample-by-sample processing with a steady frequency *)

Section SteadySamples.

Context {T : Type} {numeric : Numeric T} {cache : ApproximationCache T}.

Local Open Scope num_scope.

Lemma Done_pair_inv {A B : Type} (a a' : A) (b b' : B) :
  Done (a, b) = Done (a', b') -> a = a' /\ b = b'.
Proof. intro H; inversion H; auto. Qed.

Lemma getNextValue_steady (s : LinearSmoothedValue T) :
  isSmoothing s = false -> getNextValue s = (target s, s).
Proof.
  unfold isSmoothing, getNextValue; intro H.
  destruct (Z.leb_spec (countdown s) 0); [reflexivity|].
  apply Z.ltb_ge in H; lia.
Qed.

(** [n] calls of [processSample] while no ramp is in progress. *)
Lemma processSamples_steady (g : T -> T) (n : nat) :
  forall o : Oscillator T,
    generator o = Some g ->
    isSmoothing (frequency o) = false ->
    let increment := num_twoPi * target (frequency o) / sampleRate o in
    processSamples n o
    = Done (steady_samples g increment n (pos o),
            mkOscillator (generator o) (lookupTable o) (rampBuffer o)
                         (frequency o) (sampleRate o)
                         (phase_after increment n (pos o))).
Proof.
  cbv zeta; induction n as [|n IH]; intros o Hg Hs.
  - cbn. now destruct o.
  - cbn [processSamples].
    rewrite (processSample_Done o Hg).
    rewrite (getNextValue_steady _ Hs); cbn [bind fst snd].
    rewrite IH by (cbn; assumption).
    reflexivity.
Qed.

(** Each call of [processSample] takes one step of the smoothing primitive. *)
Lemma processSamples_cursor (n : nat) :
  forall (o o' : Oscillator T) (vs : list T),
    processSamples n o = Done (vs, o') ->
    frequency o' = smoothed_after n (frequency o).
Proof.
  induction n as [|n IH]; intros o o' vs E; cbn [processSamples] in E.
  - now inversion E.
  - unfold processSample in E at 1.
    destruct (generator o) as [g|]; [|discriminate].
    destruct (getNextValue (frequency o)) as [f s'] eqn:En.
    cbn [bind fst snd] in E.
    match type of E with
    | bind (processSamples n ?o1) _ = _ =>
        destruct (processSamples n o1) as [[vs1 o2]| |] eqn:E1
    end; cbn [bind fst snd] in E; try discriminate.
    inversion E; subst.
    rewrite (IH _ _ _ E1); cbn [frequency smoothed_after].
    now rewrite En.
Qed.

Lemma process_state_cursor (o : Oscillator T) (len : nat) :
  frequency (process_state o len)
  = if isSmoothing (frequency o)
    then smoothed_after len (frequency o)
    else smoothed_after 1 (frequency o).
Proof.
  unfold process_state; destruct (isSmoothing (frequency o)); cbn [frequency].
  - apply ramp_walk_smoothed.
  - reflexivity.
Qed.

End SteadySamples.

(** ** Exact arithmetic: the phase *)

Section ExactPhase.

Context {cache : ApproximationCache Q}.

Local Open Scope Q_scope.

Lemma twoPi_positive : 0 < num_twoPi.
Proof. reflexivity. Qed.


Lemma advance_comp (inc inc' p p' : Q) :
  inc == inc' -> p == p' -> advance inc p == advance inc' p'.
Proof. intros Hi Hp; unfold advance; exact_ops. now rewrite Hi, Hp. Qed.

Lemma steady_samples_comp (g : Q -> Q) (n : nat) :
  Proper (Qeq ==> Qeq) g ->
  forall inc inc' p p' : Q,
    inc == inc' -> p == p' ->
    Forall2 Qeq (steady_samples g inc n p) (steady_samples g inc' n p').
Proof.
  intro Hg; unfold steady_samples.
  induction n as [|n IH]; intros inc inc' p p' Hi Hp; cbn [phase_walk map].
  - constructor.
  - constructor.
    + apply Hg; exact_ops; now rewrite Hp.
    + apply IH; [exact Hi|now apply advance_comp].
Qed.

(** [n] wrapped advances from a wrapped phase land where one wrap of the
    whole sum lands. *)
Lemma phase_after_sum (inc : Q) (n : nat) :
  forall q a : Q,
    q == Qfmod a num_twoPi ->
    (0 <= inc -> - num_twoPi < a) ->
    (inc <= 0 -> a < num_twoPi) ->
    phase_after inc n q == Qfmod (a + inc * inject_Z (Z.of_nat n)) num_twoPi.
Proof.
  induction n as [|n IH]; intros q a Hq Hup Hdown.
  - cbn [phase_after]; rewrite Hq.
    apply Qfmod_comp; [cbn [Z.of_nat]; change (inject_Z 0) with 0; ring|reflexivity].
  - cbn [phase_after].
    rewrite (IH (advance inc q) (a + inc)).
    + apply Qfmod_comp; [|reflexivity].
      rewrite Nat2Z.inj_succ; unfold Z.succ; rewrite inject_Z_plus;
      change (inject_Z 1) with 1; ring.
    + unfold advance; exact_ops.
      rewrite <- (Qfmod_add_wrapped a inc num_twoPi twoPi_positive Hup Hdown).
      apply Qfmod_comp; [now rewrite Hq|reflexivity].
    + intro H; specialize (Hup H); lra.
    + intro H; specialize (Hdown H); lra.
Qed.

End ExactPhase.

Section ExactBlock.

Context {cache : ApproximationCache Q}.

Local Open Scope Q_scope.

Lemma steady_increment_exact (o : Oscillator Q) :
  0 < sampleRate o ->
  isSmoothing (frequency o) = false ->
  steady_increment o == num_twoPi * target (frequency o) / sampleRate o.
Proof.
  intros Hsr Hs; unfold steady_increment.
  rewrite (getNextValue_steady _ Hs); cbn [fst].
  exact_ops; field; lra.
Qed.

(** C3 (amended).  In exact arithmetic, while no ramp is in progress, one
    call of [process] on a one-channel block of [N] samples, [N] within the
    scratch buffer, stores the samples that [N] calls of [processSample]
    return from the same state and ends on the same phase. *)
Theorem block_matches_samples_exact
        (o : Oscillator Q) (g : Q -> Q) (context : ProcessContext Q) (held : list Q) :
  let N := numSamples (outputBlock context) in
  generator o = Some g ->
  Proper (Qeq ==> Qeq) g ->
  0 < sampleRate o ->
  isSmoothing (frequency o) = false ->
  phase_wrapped o ->
  output_only context = true ->
  channels (outputBlock context) = [held] ->
  length held = N ->
  (N <= length (rampBuffer o))%nat ->
  exists (ob os : Oscillator Q) (out outs : list Q),
    process context o = Done (ob, mkBlock N [out])
    /\ processSamples N o = Done (outs, os)
    /\ length out = N
    /\ Forall2 Qeq out outs
    /\ pos ob == pos os.
Proof.
  cbv zeta; intros Hg Hproper Hsr Hs Hwrapped Hctx Hch Hheld Hlen.
  assert (Hwf : wf_block (outputBlock context)).
  { unfold wf_block; rewrite Hch; repeat constructor; exact Hheld. }
  pose proof (process_Done context o Hg Hctx Hlen Hwf) as Eb; cbv zeta in Eb.
  pose proof (processSamples_steady g (numSamples (outputBlock context)) o Hg Hs) as Es;
    cbv zeta in Es.
  unfold getNumChannels in Eb; rewrite Hch in Eb; cbn [length repeat] in Eb.
  pose proof (steady_increment_exact o Hsr Hs) as Einc.
  eexists _, _, _, _.
  split; [exact Eb|].
  split; [exact Es|].
  unfold process_samples, process_state; rewrite Hs; cbn [pos].
  split; [apply steady_samples_length|].
  split.
  - apply steady_samples_comp; [exact Hproper|exact Einc|reflexivity].
  - destruct Hwrapped as [Hlo Hhi].
    rewrite (phase_after_sum _ (numSamples (outputBlock context)) (pos o) (pos o)).
    + apply Qfmod_comp; [|reflexivity].
      exact_ops; now rewrite Einc.
    + symmetry; apply Qfmod_small; split; assumption.
    + intros _; exact Hlo.
    + intros _; exact Hhi.
Qed.

End ExactBlock.

(** ** Exact arithmetic: the phase range *)

Section ExactRange.

Context {cache : ApproximationCache Q}.

Local Open Scope Q_scope.

Lemma getNextValue_nonneg (s : LinearSmoothedValue Q) :
  smoothing_nonneg s ->
  0 <= fst (getNextValue s) /\ smoothing_nonneg (snd (getNextValue s)).
Proof.
  intros [Ht [Hc Hramp]]; unfold getNextValue.
  destruct (Z.leb_spec (countdown s) 0) as [Hn|Hn]; cbn [fst snd].
  - split; [exact Ht|repeat split; assumption].
  - specialize (Hramp Hn).
    assert (Hm : 1 <= inject_Z (countdown s))
      by (change 1 with (inject_Z 1); rewrite <- Zle_Qle; lia).
    exact_ops.
    assert (Hc' : 0 <= currentValue s + step s).
    { destruct (Qlt_le_dec (step s) 0) as [Hneg|Hpos]; [|lra].
      assert (0 <= (inject_Z (countdown s) - 1) * (- step s))
        by (apply Qmult_le_0_compat; lra).
      lra. }
    split; [exact Hc'|].
    repeat split; cbn [target currentValue countdown step]; try assumption.
    intros _.
    unfold Z.sub; rewrite inject_Z_plus, inject_Z_opp.
    change (inject_Z 1) with 1; lra.
Qed.











End ExactRange.

(** ** The binary64 operations on known values *)

(** [float_fmod] on values of the C library's [fmod]: the sign follows the
    first argument, a large argument is reduced exactly, a subnormal one is
    returned as it is. *)
Example float_fmod_values :
  float_fmod 5.5 2 = 1.5%float
  /\ float_fmod (-5.5) 2 = (-1.5)%float
  /\ float_fmod 7 num_twoPi = 0x1.6f0255dde974p-1%float
  /\ float_fmod 0x1.7e43c8800759cp+996 num_twoPi = 0x1.63d315c34e8cp+2%float
  /\ float_fmod 0x0.00000000007e8p-1022 num_twoPi = 0x0.00000000007e8p-1022%float
  /\ float_fmod (-6) 3 = (-0)%float
  /\ float_fmod infinity 3 = nan
  /\ float_fmod 3 0 = nan
  /\ float_fmod 3 infinity = 3%float.
Proof. repeat split; vm_compute; reflexivity. Qed.

(** At 48 kHz the 0.05 s ramp is 2400 samples long, in both instances. *)
Example ramp_length_at_48k :
  stepsToTarget (frequency (example_oscillator (T := Q))) = 2400%Z
  /\ stepsToTarget (frequency (example_oscillator (T := float))) = 2400%Z.
Proof. split; vm_compute; reflexivity. Qed.

(** In binary64 too, a block of no samples leaves the phase and the block
    of the example oscillator as they were. *)
Example empty_block_binary64 :
  exists (o' : Oscillator float) (b' : AudioBlock float),
    process example_empty_context example_oscillator = Done (o', b')
    /\ pos o' = pos (example_oscillator (T := float))
    /\ frequency o' = frequency (example_oscillator (T := float))
    /\ b' = outputBlock example_empty_context.
Proof.
  eexists _, _; split; [vm_compute; reflexivity|].
  repeat split; vm_compute; reflexivity.
Qed.

(** ** The theorems at the example data *)

Lemma sawtooth_proper : Proper (Qeq ==> Qeq) (sawtooth (T := Q)).
Proof. intros x y H; unfold sawtooth; exact_ops; now rewrite H. Qed.

Lemma example_block_wf : wf_block (outputBlock (example_context (T := Q))).
Proof. repeat constructor. Qed.

(** C4 at the example oscillator. *)
Lemma processSample_step_witness :
  generator (example_oscillator (T := Q)) = Some sawtooth
  /\ exists o' : Oscillator Q,
       processSample example_oscillator
       = Done (sawtooth (num_sub (pos example_oscillator) num_pi), o')
       /\ frequency o' = snd (getNextValue (frequency example_oscillator))
       /\ pos o'
          = num_fmod
              (num_add (pos example_oscillator)
                 (num_div
                    (num_mul num_twoPi
                       (fst (getNextValue (frequency example_oscillator))))
                    (sampleRate example_oscillator)))
              num_twoPi
       /\ generator o' = generator example_oscillator
       /\ lookupTable o' = lookupTable example_oscillator
       /\ rampBuffer o' = rampBuffer example_oscillator
       /\ sampleRate o' = sampleRate example_oscillator.
Proof.
  split; [reflexivity|].
  apply (processSample_step (example_oscillator (T := Q)) (g := sawtooth));
    reflexivity.
Defined.

(** C2 at the example specification (at most 8 samples) and a block of 9. *)
Lemma process_block_size_contract_witness :
  (0 <= spec_maximumBlockSize (example_spec (T := Q)) < 2 ^ 31)%Z
  /\ process example_long_context (reset (example_oscillator (T := Q)))
     = ContractViolation
  /\ process example_long_context (reset (example_oscillator (T := Q)))
     <> OutOfBounds.
Proof.
  assert (Hmax : (0 <= spec_maximumBlockSize (example_spec (T := Q)) < 2 ^ 31)%Z)
    by (cbn; lia).
  split; [exact Hmax|].
  destruct (process_block_size_contract
              (example_spec (T := Q)) (Oscillator_with sawtooth 0)
              (o := reset example_oscillator) [CallReset] example_long_context
              Hmax eq_refl) as [Hlong [Hbounds _]].
  split; [apply Hlong; cbn; lia|exact Hbounds].
Defined.

(** C7 at the two-channel example block, a ramp in progress. *)
Lemma process_channels_identical_witness :
  isSmoothing (frequency (example_ramping_oscillator (T := Q))) = true
  /\ exists (o' : Oscillator Q) (b' : AudioBlock Q),
       process example_context example_ramping_oscillator = Done (o', b')
       /\ getNumChannels b' = 2
       /\ forall (i j : nat) (ci cj : list Q),
            nth_error (channels b') i = Some ci ->
            nth_error (channels b') j = Some cj ->
            ci = cj /\ length ci = 3.
Proof.
  split; [reflexivity|].
  assert (E := process_Done example_context (example_ramping_oscillator (T := Q))
                 (g := sawtooth) eq_refl eq_refl
                 (le_S _ _ (le_S _ _ (le_S _ _ (le_S _ _ (le_S _ _ (le_n 3))))))
                 example_block_wf).
  cbv zeta in E.
  eexists _, _; split; [exact E|].
  exact (process_channels_identical example_context example_ramping_oscillator
           example_block_wf E).
Defined.

(** C8 at the two-channel example block, a ramp to 880 Hz in progress. *)
Lemma process_frame_witness :
  exists (o' : Oscillator Q) (b' : AudioBlock Q),
    process example_context example_ramping_oscillator = Done (o', b')
    /\ generator o' = generator (example_ramping_oscillator (T := Q))
    /\ lookupTable o' = lookupTable (example_ramping_oscillator (T := Q))
    /\ sampleRate o' = sampleRate (example_ramping_oscillator (T := Q))
    /\ length (rampBuffer o') = 8
    /\ frequency o' = smoothed_after 3 (frequency example_ramping_oscillator)
    /\ target (frequency o') = 880%Q
    /\ step (frequency o') = step (frequency (example_ramping_oscillator (T := Q)))
    /\ stepsToTarget (frequency o') = 2400%Z
    /\ b' = mkBlock 3 (repeat (process_samples sawtooth example_ramping_oscillator 3) 2).
Proof.
  assert (E := process_Done example_context (example_ramping_oscillator (T := Q))
                 (g := sawtooth) eq_refl eq_refl
                 (le_S _ _ (le_S _ _ (le_S _ _ (le_S _ _ (le_S _ _ (le_n 3))))))
                 example_block_wf).
  cbv zeta in E.
  eexists _, _; split; [exact E|].
  destruct (process_frame example_context example_ramping_oscillator example_block_wf E)
    as [[Hg [Ht [Hsr Hbuf]]] [[Hcursor [Htarget [Hstep Hsteps]]] _]].
  repeat split; assumption.
Defined.

(** C3 (amended) at the one-channel example block. *)
Lemma block_matches_samples_exact_witness :
  exists (ob os : Oscillator Q) (out outs : list Q),
    process example_mono_context example_oscillator = Done (ob, mkBlock 3 [out])
    /\ processSamples 3 example_oscillator = Done (outs, os)
    /\ length out = 3
    /\ Forall2 Qeq out outs
    /\ (pos ob == pos os)%Q.
Proof.
  apply (block_matches_samples_exact
           example_oscillator sawtooth example_mono_context
           [num_440; num_440; num_440]).
  - reflexivity.
  - exact sawtooth_proper.
  - reflexivity.
  - reflexivity.
  - split; reflexivity.
  - reflexivity.
  - reflexivity.
  - reflexivity.
  - vm_compute; repeat constructor.
Defined.


(** ** Where the code and the specification part *)


(** C3.  In binary64, with a steady frequency and blocks within the
    prepared maximum.  At 1 kHz and 48 kHz, from phase 0, one [process] call
    of 48 samples and 48 [processSample] calls produce the same samples but
    end a whole period apart, on 0 and on 6.2831853071795818.  At 300 Hz and
    8 kHz the two increments differ in the last place, and the sample of
    index 80 of the sawtooth is -0.99999999999999545 from [process] and
    0.99999999999999545 from [processSample]. *)
Lemma block_and_samples_end_a_period_apart :
  (isSmoothing (frequency kilohertz_oscillator) = false
   /\ length (rampBuffer kilohertz_oscillator) = 64
   /\ getNumChannels (outputBlock kilohertz_context) = 1
   /\ exists (ob os : Oscillator float) (b : AudioBlock float) (outs : list float),
        process kilohertz_context kilohertz_oscillator = Done (ob, b)
        /\ processSamples 48 kilohertz_oscillator = Done (outs, os)
        /\ channels b = [outs]
        /\ pos ob = 0%float
        /\ pos os = 0x1.921fb54442d13p+2%float
        /\ PrimFloat.ltb 6 (PrimFloat.sub (pos os) (pos ob)) = true)
  /\ (isSmoothing (frequency seam_oscillator) = false
      /\ length (rampBuffer seam_oscillator) = 128
      /\ getNumChannels (outputBlock seam_context) = 1
      /\ exists (ob os : Oscillator float) (out outs : list float),
           process seam_context seam_oscillator = Done (ob, mkBlock 81 [out])
           /\ processSamples 81 seam_oscillator = Done (outs, os)
           /\ nth 80 out 0%float = (-0x1.fffffffffffd7p-1)%float
           /\ nth 80 outs 0%float = 0x1.fffffffffffd7p-1%float).
Proof.
  split.
  - split; [reflexivity|].
    split; [reflexivity|].
    split; [reflexivity|].
    eexists _, _, _, _.
    split; [vm_compute; reflexivity|].
    split; [vm_compute; reflexivity|].
    repeat split; vm_compute; reflexivity.
  - split; [reflexivity|].
    split; [reflexivity|].
    split; [reflexivity|].
    eexists _, _, _, _.
    split; [vm_compute; reflexivity|].
    split; [vm_compute; reflexivity|].
    split; vm_compute; reflexivity.
Qed.

(** C10.  In binary64 a steady block of no samples does not always leave
    the phase as it was: the end-of-block update is
    [fmod (pos + freq * 0, twoPi)], and [freq * 0] is NaN when [freq] is
    infinite.  With the sample rate 0 ([twoPi / 0]), and with 2^1023 Hz at
    the sample rate 1 ([twoPi * 2^1023] overflows), the phase 0 becomes
    NaN; the output block is left as it was. *)
Lemma empty_steady_block_leaves_nan :
  (isSmoothing (frequency unrated_oscillator) = false
   /\ pos unrated_oscillator = 0%float
   /\ exists (o' : Oscillator float) (b' : AudioBlock float),
        process example_empty_context unrated_oscillator = Done (o', b')
        /\ PrimFloat.is_nan (pos o') = true
        /\ b' = outputBlock example_empty_context)
  /\ (isSmoothing (frequency overflow_oscillator) = false
      /\ sampleRate overflow_oscillator = 1%float
      /\ pos overflow_oscillator = 0%float
      /\ exists (o' : Oscillator float) (b' : AudioBlock float),
           process example_empty_context overflow_oscillator = Done (o', b')
           /\ PrimFloat.is_nan (pos o') = true
           /\ b' = outputBlock example_empty_context).
Proof.
  split.
  - split; [reflexivity|].
    split; [reflexivity|].
    eexists _, _; split; [vm_compute; reflexivity|].
    split; vm_compute; reflexivity.
  - split; [reflexivity|].
    split; [vm_compute; reflexivity|].
    split; [reflexivity|].
    eexists _, _; split; [vm_compute; reflexivity|].
    split; vm_compute; reflexivity.
Qed.

(** C5.  Re-initialising without a table keeps the table of the earlier
    initialisation: nothing is deleted and the pointer still holds it,
    although the generator no longer uses it. *)
Lemma initialise_direct_keeps_table
      {T : Type} {numeric : Numeric T} {cache : ApproximationCache T}
      (f g : T -> T) (o : Oscillator T) :
  let o1 := fst (initialise f 4 o) in
  let table := lut_new f num_negPi num_pi 4 in
  lookupTable o1 = Some table
  /\ snd (initialise g 0 o1) = []
  /\ lookupTable (fst (initialise g 0 o1)) = Some table
  /\ generator (fst (initialise g 0 o1)) = Some g.
Proof. cbv zeta; repeat split. Qed.

(** * Further properties of the header *)

(** ** Outcomes, frame and composition, for every numeric type *)

Section Composition.

Context {T : Type} {numeric : Numeric T} {cache : ApproximationCache T}.

Local Open Scope num_scope.

Lemma silent_context_wf (numChannels len : nat) :
  wf_block (outputBlock (silent_context (T := T) numChannels len)).
Proof.
  unfold wf_block, silent_context; cbn [outputBlock channels numSamples].
  apply Forall_forall; intros c Hc.
  apply repeat_spec in Hc; subst; apply repeat_length.
Qed.

Lemma silent_context_channels (numChannels len : nat) :
  getNumChannels (outputBlock (silent_context (T := T) numChannels len)) = numChannels.
Proof. unfold getNumChannels, silent_context; cbn; apply repeat_length. Qed.

Lemma process_samples_arguments (g : T -> T) (o : Oscillator T) (len : nat) :
  process_samples g o len = map g (process_arguments o len).
Proof.
  unfold process_samples, process_arguments, steady_samples.
  destruct (isSmoothing (frequency o)); [reflexivity|].
  now rewrite map_map.
Qed.

Lemma process_arguments_length (o : Oscillator T) (len : nat) :
  length (process_arguments o len) = len.
Proof.
  unfold process_arguments; destruct (isSmoothing (frequency o)).
  - apply ramp_walk_length.
  - now rewrite length_map, phase_walk_length.
Qed.

(** A call of [process] on a silent block, in closed form. *)
Lemma process_silent (o : Oscillator T) (g : T -> T) (numChannels len : nat) :
  generator o = Some g ->
  len <= length (rampBuffer o) ->
  process (silent_context numChannels len) o
  = Done (process_state o len,
          mkBlock len (repeat (map g (process_arguments o len)) numChannels)).
Proof.
  intros Hg Hlen.
  rewrite (process_Done (silent_context numChannels len) o Hg eq_refl Hlen
             (silent_context_wf numChannels len)).
  now rewrite silent_context_channels, process_samples_arguments.
Qed.

(** X1.  The outcome of [processSample] and of [process] is decided by the
    asserted conditions alone: [processSample] completes exactly on an
    initialised oscillator; [process] completes exactly when the oscillator
    is initialised, the context is output-only and the block is no longer
    than the scratch buffer; in every other case the call stops with a
    contract violation. *)
Theorem outcome_decided_by_assertions (context : ProcessContext T) (o : Oscillator T) :
  let accepted := isInitialised o && output_only context
                  && Nat.leb (numSamples (outputBlock context)) (length (rampBuffer o)) in
  (isInitialised o = true <-> exists r, processSample o = Done r)
  /\ (isInitialised o = false <-> processSample o = ContractViolation)
  /\ (accepted = true <-> exists r, process context o = Done r)
  /\ (accepted = false <-> process context o = ContractViolation).
Proof.
  cbv zeta; split; [|split].
  - unfold isInitialised, processSample.
    destruct (generator o) as [g|].
    + destruct (getNextValue (frequency o)) as [f s'].
      split; [intros _; eexists; reflexivity|reflexivity].
    + split; [discriminate|intros [r Hr]; discriminate].
  - unfold isInitialised, processSample.
    destruct (generator o) as [g|].
    + destruct (getNextValue (frequency o)) as [f s'].
      split; discriminate.
    + split; reflexivity.
  - generalize (process_cases context o); cbv zeta.
    destruct (isInitialised o && output_only context
              && Nat.leb (numSamples (outputBlock context)) (length (rampBuffer o))).
    + intros [b E]; split; split; try discriminate; try reflexivity.
      * intros _; eexists; exact E.
      * rewrite E; discriminate.
    + intros E; split; split; try discriminate; try reflexivity.
      * intros [r Hr]; rewrite E in Hr; discriminate.
      * intros _; exact E.
Qed.

(** X2.  The state a call of [process] leaves depends on the number of
    samples only: a block with another number of channels, none included,
    and other contents gives the same phase, smoothing state and scratch
    buffer. *)
Theorem process_state_ignores_channels
        (c1 c2 : ProcessContext T) (o o1 : Oscillator T) (b1 : AudioBlock T) :
  numSamples (outputBlock c2) = numSamples (outputBlock c1) ->
  output_only c2 = true ->
  process c1 o = Done (o1, b1) ->
  exists b2 : AudioBlock T, process c2 o = Done (o1, b2).
Proof.
  intros Hlen Hctx E.
  destruct (process_Done_inv c1 o E) as [[g Hg] [_ Hle]].
  rewrite (process_Done_state c1 o E), <- Hlen.
  generalize (process_cases c2 o); cbv zeta.
  unfold isInitialised; rewrite Hg, Hctx, Hlen; cbn [andb].
  destruct (Nat.leb_spec (numSamples (outputBlock c1)) (length (rampBuffer o)));
    [trivial|lia].
Qed.

(** X3.  What [process] does to the scratch buffer: nothing in the steady
    branch; in the ramping branch its first [len] entries become the
    generator arguments of the block and the entries after them are kept. *)
Theorem scratch_buffer_after_process
        (context : ProcessContext T) (o o' : Oscillator T) (b' : AudioBlock T) :
  process context o = Done (o', b') ->
  let len := numSamples (outputBlock context) in
  rampBuffer o'
  = if isSmoothing (frequency o)
    then process_arguments o len ++ skipn len (rampBuffer o)
    else rampBuffer o.
Proof.
  intro E; cbv zeta.
  destruct (process_Done_inv context o E) as [_ [_ Hle]].
  rewrite (process_Done_state context o E).
  unfold process_state, process_arguments.
  destruct (isSmoothing (frequency o)); cbn [rampBuffer]; [|reflexivity].
  rewrite overwrite_prefix by (rewrite ramp_walk_length; exact Hle).
  now rewrite ramp_walk_length.
Qed.

Lemma ramp_walk_app (base : T) (a b : nat) :
  forall (s : LinearSmoothedValue T) (p : T),
    ramp_walk base (a + b) s p
    = (fst (ramp_walk base a s p)
         ++ fst (ramp_walk base b (fst (snd (ramp_walk base a s p)))
                           (snd (snd (ramp_walk base a s p)))),
       snd (ramp_walk base b (fst (snd (ramp_walk base a s p)))
                      (snd (snd (ramp_walk base a s p))))).
Proof.
  induction a as [|a IH]; intros s p; cbn [Nat.add ramp_walk].
  - cbn [fst snd app]; now destruct (ramp_walk base b s p).
  - destruct (getNextValue s) as [f s'].
    rewrite IH.
    destruct (ramp_walk base a s' (advance (base * f) p)) as [staged [s1 p1]].
    reflexivity.
Qed.

Lemma ramping_closed_forms (o : Oscillator T) (len : nat) :
  isSmoothing (frequency o) = true ->
  process_arguments o len
  = fst (ramp_walk (num_twoPi / sampleRate o) len (frequency o) (pos o))
  /\ pos (process_state o len)
     = snd (snd (ramp_walk (num_twoPi / sampleRate o) len (frequency o) (pos o)))
  /\ frequency (process_state o len)
     = fst (snd (ramp_walk (num_twoPi / sampleRate o) len (frequency o) (pos o)))
  /\ sampleRate (process_state o len) = sampleRate o.
Proof.
  intro Hs; unfold process_arguments, process_state; rewrite Hs; repeat split.
Qed.

Lemma ramping_closed_forms_split (o : Oscillator T) (a b : nat) :
  isSmoothing (frequency o) = true ->
  isSmoothing (smoothed_after a (frequency o)) = true ->
  process_arguments o (a + b)
  = process_arguments o a ++ process_arguments (process_state o a) b
  /\ pos (process_state o (a + b)) = pos (process_state (process_state o a) b)
  /\ frequency (process_state o (a + b))
     = frequency (process_state (process_state o a) b).
Proof.
  intros Hs Hsa.
  destruct (ramping_closed_forms o a Hs) as [Haa [Hpa [Hfa Hsra]]].
  destruct (ramping_closed_forms o (a + b)%nat Hs) as [Haab [Hpab [Hfab _]]].
  assert (Hsa' : isSmoothing (frequency (process_state o a)) = true)
    by (rewrite Hfa, ramp_walk_smoothed; exact Hsa).
  destruct (ramping_closed_forms (process_state o a) b Hsa') as [Hab [Hpb [Hfb _]]].
  rewrite Haab, Hpab, Hfab, Hab, Hpb, Hfb, Haa, Hsra, Hfa, Hpa.
  rewrite ramp_walk_app; cbn [fst snd].
  repeat split.
Qed.

(** X4.  While a ramp is in progress and still in progress after [a]
    samples, one block of [a + b] samples gives bit for bit what a block of
    [a] samples followed by a block of [b] samples gives: the same samples in
    every channel, the same phase and the same smoothing state. *)
Theorem ramping_block_splits
        (o : Oscillator T) (g : T -> T) (numChannels a b : nat) :
  generator o = Some g ->
  a + b <= length (rampBuffer o) ->
  isSmoothing (frequency o) = true ->
  isSmoothing (smoothed_after a (frequency o)) = true ->
  exists (oa ob oab : Oscillator T) (outa outb : list T),
    process (silent_context numChannels a) o
    = Done (oa, mkBlock a (repeat outa numChannels))
    /\ process (silent_context numChannels b) oa
       = Done (ob, mkBlock b (repeat outb numChannels))
    /\ process (silent_context numChannels (a + b)) o
       = Done (oab, mkBlock (a + b) (repeat (outa ++ outb) numChannels))
    /\ pos oab = pos ob
    /\ frequency oab = frequency ob.
Proof.
  intros Hg Hlen Hs Hsa.
  destruct (process_state_frame o a) as [Hga [_ [_ Hbufa]]].
  destruct (ramping_closed_forms_split o a b Hs Hsa) as [Ha [Hp Hf]].
  exists (process_state o a), (process_state (process_state o a) b),
    (process_state o (a + b)%nat),
    (map g (process_arguments o a)),
    (map g (process_arguments (process_state o a) b)).
  split; [apply process_silent; [exact Hg|lia]|].
  split; [apply process_silent; [now rewrite Hga|rewrite Hbufa; lia]|].
  split; [|split; assumption].
  rewrite (process_silent o g numChannels (a + b)%nat Hg Hlen).
  now rewrite Ha, map_app.
Qed.

(** X5.  [initialise] commutes with [prepare], [reset] and [setFrequency]:
    installing a generator before or after any of them gives the same
    oscillator and deletes the same table. *)
Theorem initialise_commutes
        (function : T -> T) (numPoints : nat) (spec : ProcessSpec T)
        (newFrequency : T) (force : bool) (o : Oscillator T) :
  initialise function numPoints (prepare spec o)
  = (prepare spec (fst (initialise function numPoints o)),
     snd (initialise function numPoints o))
  /\ initialise function numPoints (reset o)
     = (reset (fst (initialise function numPoints o)),
        snd (initialise function numPoints o))
  /\ initialise function numPoints (setFrequency newFrequency force o)
     = (setFrequency newFrequency force (fst (initialise function numPoints o)),
        snd (initialise function numPoints o)).
Proof.
  rewrite !initialise_branches; cbv zeta.
  destruct (Nat.eqb numPoints 0); repeat split.
Qed.

Lemma process_arguments_ext (o1 o2 : Oscillator T) (len : nat) :
  frequency o1 = frequency o2 -> sampleRate o1 = sampleRate o2 -> pos o1 = pos o2 ->
  process_arguments o1 len = process_arguments o2 len
  /\ pos (process_state o1 len) = pos (process_state o2 len)
  /\ frequency (process_state o1 len) = frequency (process_state o2 len).
Proof.
  intros Hf Hsr Hp.
  unfold process_arguments, process_state, steady_increment.
  rewrite Hf, Hsr, Hp.
  destruct (isSmoothing (frequency o2)); repeat split.
Qed.

(** X6.  An oscillator initialised with a lookup table and one initialised
    with the function itself run the same phase trajectory: a block of the
    first holds the table at exactly the arguments at which the block of the
    second holds the function, and both end on the same phase and smoothing
    state. *)
Theorem table_and_function_share_arguments
        (function : T -> T) (numPoints : nat) (o : Oscillator T)
        (context : ProcessContext T) (od : Oscillator T) (bd : AudioBlock T) :
  numPoints <> 0 ->
  wf_block (outputBlock context) ->
  process context (fst (initialise function 0 o)) = Done (od, bd) ->
  let table := lut_new function num_negPi num_pi numPoints in
  let len := numSamples (outputBlock context) in
  let numChannels := getNumChannels (outputBlock context) in
  exists (ot : Oscillator T) (args : list T),
    process context (fst (initialise function numPoints o))
    = Done (ot, mkBlock len (repeat (map (lut_call table) args) numChannels))
    /\ bd = mkBlock len (repeat (map function args) numChannels)
    /\ length args = len
    /\ pos ot = pos od
    /\ frequency ot = frequency od.
Proof.
  intros Hn Hwf E; cbv zeta.
  destruct (process_Done_inv _ _ E) as [_ [Hctx Hle]].
  rewrite initialise_branches in *; cbv zeta in *.
  apply Nat.eqb_neq in Hn; rewrite Hn.
  cbn [Nat.eqb fst] in *.
  set (o0 := mkOscillator (Some function) (lookupTable o) (rampBuffer o)
                          (frequency o) (sampleRate o) (pos o)) in *.
  set (o1 := mkOscillator (Some (lut_call (lut_new function num_negPi num_pi numPoints)))
                          (Some (lut_new function num_negPi num_pi numPoints))
                          (rampBuffer o) (frequency o) (sampleRate o) (pos o)).
  rewrite (process_Done context o0 (g := function) eq_refl Hctx Hle Hwf) in E.
  apply Done_pair_inv in E; destruct E as [<- <-].
  destruct (process_arguments_ext o1 o0 (numSamples (outputBlock context))
              eq_refl eq_refl eq_refl) as [Ha [Hp Hf]].
  exists (process_state o1 (numSamples (outputBlock context))),
    (process_arguments o0 (numSamples (outputBlock context))).
  split.
  - rewrite (process_Done context o1
               (g := lut_call (lut_new function num_negPi num_pi numPoints))
               eq_refl Hctx Hle Hwf).
    now rewrite process_samples_arguments, Ha.
  - rewrite process_samples_arguments.
    repeat split; try assumption.
    apply process_arguments_length.
Qed.

End Composition.

(** ** Sample-by-sample processing in any smoothing state *)

Section SampleWalk.

Context {T : Type} {numeric : Numeric T} {cache : ApproximationCache T}.

Local Open Scope num_scope.

(** [n] calls of [processSample], in closed form. *)
Lemma processSamples_walk (g : T -> T) (n : nat) :
  forall o : Oscillator T,
    generator o = Some g ->
    processSamples n o
    = Done (map g (fst (sample_walk (sampleRate o) n (frequency o) (pos o))),
            mkOscillator (generator o) (lookupTable o) (rampBuffer o)
              (fst (snd (sample_walk (sampleRate o) n (frequency o) (pos o))))
              (sampleRate o)
              (snd (snd (sample_walk (sampleRate o) n (frequency o) (pos o))))).
Proof.
  induction n as [|n IH]; intros o Hg.
  - cbn. now destruct o.
  - cbn [processSamples sample_walk].
    rewrite (processSample_Done o Hg); cbn [bind fst snd].
    rewrite IH by (cbn; assumption).
    cbn [generator lookupTable rampBuffer frequency sampleRate pos bind fst snd].
    destruct (getNextValue (frequency o)) as [f s']; cbn [fst snd].
    unfold advance.
    destruct (sample_walk (sampleRate o) n s'
                (num_fmod (pos o + num_twoPi * f / sampleRate o) num_twoPi))
      as [args [s'' p'']].
    reflexivity.
Qed.

Lemma sample_walk_length (rate : T) (n : nat) :
  forall (s : LinearSmoothedValue T) (p : T),
    length (fst (sample_walk rate n s p)) = n.
Proof.
  induction n as [|n IH]; intros s p; cbn [sample_walk]; [reflexivity|].
  destruct (getNextValue s) as [f s'].
  specialize (IH s' (advance (num_twoPi * f / rate) p)).
  destruct (sample_walk rate n s' (advance (num_twoPi * f / rate) p)).
  cbn in *; now rewrite IH.
Qed.

Lemma sample_walk_steady (rate : T) (n : nat) (s : LinearSmoothedValue T) :
  isSmoothing s = false ->
  forall p : T,
    sample_walk rate n s p
    = (map (fun q => q - num_pi) (phase_walk (num_twoPi * target s / rate) n p),
       (s, phase_after (num_twoPi * target s / rate) n p)).
Proof.
  intro Hs; induction n as [|n IH]; intro p; cbn [sample_walk phase_walk phase_after map];
    [reflexivity|].
  rewrite (getNextValue_steady s Hs), IH; reflexivity.
Qed.

Lemma sample_walk_app (rate : T) (a b : nat) :
  forall (s : LinearSmoothedValue T) (p : T),
    sample_walk rate (a + b) s p
    = (fst (sample_walk rate a s p)
         ++ fst (sample_walk rate b (fst (snd (sample_walk rate a s p)))
                             (snd (snd (sample_walk rate a s p)))),
       snd (sample_walk rate b (fst (snd (sample_walk rate a s p)))
                        (snd (snd (sample_walk rate a s p))))).
Proof.
  induction a as [|a IH]; intros s p; cbn [Nat.add sample_walk].
  - cbn [fst snd app]; now destruct (sample_walk rate b s p).
  - destruct (getNextValue s) as [f s'].
    rewrite IH.
    destruct (sample_walk rate a s' (advance (num_twoPi * f / rate) p))
      as [args [s1 p1]].
    reflexivity.
Qed.

End SampleWalk.

(** ** Exact arithmetic: blocks and samples in any smoothing state *)

Section ExactWalks.

Context {cache : ApproximationCache Q}.

Local Open Scope Q_scope.

Lemma twoPi_is_two_pi : num_twoPi == 2 * num_pi.
Proof. reflexivity. Qed.

Lemma Forall2_Qeq_refl (l : list Q) : Forall2 Qeq l l.
Proof. induction l; constructor; [reflexivity|assumption]. Qed.

Lemma Forall2_Qeq_sym (l1 l2 : list Q) : Forall2 Qeq l1 l2 -> Forall2 Qeq l2 l1.
Proof. induction 1; constructor; [now symmetry|assumption]. Qed.

Lemma Forall2_Qeq_trans (l1 l2 l3 : list Q) :
  Forall2 Qeq l1 l2 -> Forall2 Qeq l2 l3 -> Forall2 Qeq l1 l3.
Proof.
  intro H; revert l3; induction H as [|x y l1 l2 Hxy H IH]; intros l3 H3;
    inversion H3; subst; constructor.
  - etransitivity; eassumption.
  - now apply IH.
Qed.

Lemma Forall2_Qeq_map (g : Q -> Q) (l1 l2 : list Q) :
  Proper (Qeq ==> Qeq) g -> Forall2 Qeq l1 l2 -> Forall2 Qeq (map g l1) (map g l2).
Proof. intros Hg; induction 1; cbn [map]; constructor; [now apply Hg|assumption]. Qed.

(** The staging loop of a block and the same number of [processSample]
    calls walk the same phases, up to equality of rationals. *)
Lemma walks_agree (rate : Q) (n : nat) :
  0 < rate ->
  forall (s : LinearSmoothedValue Q) (p p' : Q),
    p == p' ->
    Forall2 Qeq (fst (ramp_walk (num_twoPi / rate)%num n s p))
                (fst (sample_walk rate n s p'))
    /\ fst (snd (ramp_walk (num_twoPi / rate)%num n s p))
       = fst (snd (sample_walk rate n s p'))
    /\ snd (snd (ramp_walk (num_twoPi / rate)%num n s p))
       == snd (snd (sample_walk rate n s p')).
Proof.
  intro Hrate; induction n as [|n IH]; intros s p p' Hp; cbn [ramp_walk sample_walk].
  - cbn; repeat split; [constructor|exact Hp].
  - destruct (getNextValue s) as [f s'].
    assert (Hadv : advance (num_twoPi / rate * f)%num p
                   == advance (num_twoPi * f / rate)%num p').
    { apply advance_comp; [exact_ops; field; lra|exact Hp]. }
    specialize (IH s' _ _ Hadv).
    destruct (ramp_walk (num_twoPi / rate)%num n s' (advance (num_twoPi / rate * f)%num p))
      as [staged [s1 p1]].
    destruct (sample_walk rate n s' (advance (num_twoPi * f / rate)%num p'))
      as [args [s2 p2]].
    cbn [fst snd] in *; destruct IH as [Ha [Hs Hq]].
    repeat split; try assumption.
    constructor; [exact_ops; now rewrite Hp|exact Ha].
Qed.

Lemma sample_walk_comp (rate : Q) (n : nat) :
  forall (s : LinearSmoothedValue Q) (p p' : Q),
    p == p' ->
    Forall2 Qeq (fst (sample_walk rate n s p)) (fst (sample_walk rate n s p'))
    /\ fst (snd (sample_walk rate n s p)) = fst (snd (sample_walk rate n s p'))
    /\ snd (snd (sample_walk rate n s p)) == snd (snd (sample_walk rate n s p')).
Proof.
  induction n as [|n IH]; intros s p p' Hp; cbn [sample_walk].
  - cbn; repeat split; [constructor|exact Hp].
  - destruct (getNextValue s) as [f s'].
    assert (Hadv : advance (num_twoPi * f / rate)%num p
                   == advance (num_twoPi * f / rate)%num p')
      by (apply advance_comp; [reflexivity|exact Hp]).
    specialize (IH s' _ _ Hadv).
    destruct (sample_walk rate n s' (advance (num_twoPi * f / rate)%num p))
      as [args1 [s1 p1]].
    destruct (sample_walk rate n s' (advance (num_twoPi * f / rate)%num p'))
      as [args2 [s2 p2]].
    cbn [fst snd] in *; destruct IH as [Ha [Hs Hq]].
    repeat split; try assumption.
    constructor; [exact_ops; now rewrite Hp|exact Ha].
Qed.

Lemma phase_walk_comp (n : nat) :
  forall inc inc' p p' : Q,
    inc == inc' -> p == p' ->
    Forall2 Qeq (map (fun q => q - num_pi)%num (phase_walk inc n p))
                (map (fun q => q - num_pi)%num (phase_walk inc' n p')).
Proof.
  induction n as [|n IH]; intros inc inc' p p' Hi Hp; cbn [phase_walk map].
  - constructor.
  - constructor; [exact_ops; now rewrite Hp|].
    apply IH; [exact Hi|now apply advance_comp].
Qed.

(** A block as samples: in either branch [process] passes to the generator
    the arguments of as many [processSample] calls and ends on their phase
    and smoothing state. *)
Lemma block_as_samples (o : Oscillator Q) (n : nat) :
  0 < sampleRate o ->
  phase_wrapped o ->
  Forall2 Qeq (process_arguments o n)
              (fst (sample_walk (sampleRate o) n (frequency o) (pos o)))
  /\ frequency (process_state o n)
     = fst (snd (sample_walk (sampleRate o) n (frequency o) (pos o)))
  /\ pos (process_state o n)
     == snd (snd (sample_walk (sampleRate o) n (frequency o) (pos o))).
Proof.
  intros Hsr [Hlo Hhi].
  destruct (isSmoothing (frequency o)) eqn:Hs.
  - destruct (ramping_closed_forms o n Hs) as [Ha [Hp [Hf _]]].
    rewrite Ha, Hp, Hf.
    apply walks_agree; [exact Hsr|reflexivity].
  - pose proof (steady_increment_exact o Hsr Hs) as Einc.
    rewrite (sample_walk_steady _ _ _ Hs); cbn [fst snd].
    unfold process_arguments, process_state; rewrite Hs; cbn [frequency pos].
    split; [apply phase_walk_comp; [exact Einc|reflexivity]|].
    split; [now rewrite (getNextValue_steady _ Hs)|].
    rewrite (phase_after_sum _ n (pos o) (pos o)).
    + apply Qfmod_comp; [|reflexivity].
      exact_ops; now rewrite Einc.
    + symmetry; apply Qfmod_small; split; assumption.
    + intros _; exact Hlo.
    + intros _; exact Hhi.
Qed.

(** X7.  In exact arithmetic, while a ramp is in progress, one call of
    [process] on [N] samples stores in every channel the samples that [N]
    calls of [processSample] return from the same state, and ends on the
    same phase and the same smoothing state. *)
Theorem ramping_block_matches_samples_exact
        (o : Oscillator Q) (g : Q -> Q) (context : ProcessContext Q) :
  let N := numSamples (outputBlock context) in
  generator o = Some g ->
  Proper (Qeq ==> Qeq) g ->
  0 < sampleRate o ->
  isSmoothing (frequency o) = true ->
  output_only context = true ->
  wf_block (outputBlock context) ->
  (N <= length (rampBuffer o))%nat ->
  exists (ob os : Oscillator Q) (out outs : list Q),
    process context o
    = Done (ob, mkBlock N (repeat out (getNumChannels (outputBlock context))))
    /\ processSamples N o = Done (outs, os)
    /\ length out = N
    /\ Forall2 Qeq out outs
    /\ pos ob == pos os
    /\ frequency ob = frequency os.
Proof.
  cbv zeta; intros Hg Hproper Hsr Hs Hctx Hwf Hlen.
  pose proof (process_Done context o Hg Hctx Hlen Hwf) as Eb; cbv zeta in Eb.
  pose proof (processSamples_walk g (numSamples (outputBlock context)) o Hg) as Es.
  destruct (ramping_closed_forms o (numSamples (outputBlock context)) Hs)
    as [Ha [Hp [Hf _]]].
  destruct (walks_agree (sampleRate o) (numSamples (outputBlock context)) Hsr
              (frequency o) (pos o) (pos o) (Qeq_refl _)) as [Wa [Ws Wp]].
  eexists _, _, _, _.
  split; [exact Eb|].
  split; [exact Es|].
  rewrite process_samples_arguments, Ha; cbn [pos frequency].
  split; [now rewrite length_map, ramp_walk_length|].
  split; [now apply Forall2_Qeq_map|].
  split; [now rewrite Hp|now rewrite Hf].
Qed.

End ExactWalks.

Section ExactBlocks.

Context {cache : ApproximationCache Q}.

Local Open Scope Q_scope.

Lemma ramp_walk_wrapped (base : Q) (n : nat) :
  forall (s : LinearSmoothedValue Q) (p : Q),
    - num_twoPi < p < num_twoPi ->
    - num_twoPi < snd (snd (ramp_walk base n s p)) < num_twoPi.
Proof.
  induction n as [|n IH]; intros s p Hp; cbn [ramp_walk]; [exact Hp|].
  destruct (getNextValue s) as [f s'].
  assert (Hadv : - num_twoPi < advance (base * f)%num p < num_twoPi).
  { unfold advance; exact_ops; apply Qfmod_bounded, twoPi_positive. }
  specialize (IH s' _ Hadv).
  now destruct (ramp_walk base n s' (advance (base * f)%num p)).
Qed.

Lemma process_state_wrapped (o : Oscillator Q) (len : nat) :
  phase_wrapped o -> phase_wrapped (process_state o len).
Proof.
  unfold phase_wrapped, process_state; intro Hp.
  destruct (isSmoothing (frequency o)); cbn [pos].
  - now apply ramp_walk_wrapped.
  - exact_ops; apply Qfmod_bounded, twoPi_positive.
Qed.

(** X8.  In exact arithmetic a block may be cut anywhere: from any state,
    ramping or steady, one block of [a + b] samples gives the samples, the
    phase and the smoothing state that a block of [a] samples followed by a
    block of [b] samples gives. *)
Theorem block_splits_exact
        (o : Oscillator Q) (g : Q -> Q) (numChannels a b : nat) :
  generator o = Some g ->
  Proper (Qeq ==> Qeq) g ->
  0 < sampleRate o ->
  phase_wrapped o ->
  (a + b <= length (rampBuffer o))%nat ->
  exists (oa ob oab : Oscillator Q) (outa outb outab : list Q),
    process (silent_context numChannels a) o
    = Done (oa, mkBlock a (repeat outa numChannels))
    /\ process (silent_context numChannels b) oa
       = Done (ob, mkBlock b (repeat outb numChannels))
    /\ process (silent_context numChannels (a + b)) o
       = Done (oab, mkBlock (a + b) (repeat outab numChannels))
    /\ Forall2 Qeq outab (outa ++ outb)
    /\ pos oab == pos ob
    /\ frequency oab = frequency ob.
Proof.
  intros Hg Hproper Hsr Hwrapped Hlen.
  destruct (process_state_frame o a) as [Hga [_ [Hsra Hbufa]]].
  pose proof (process_state_wrapped o a Hwrapped) as Hwa.
  assert (Hsr' : 0 < sampleRate (process_state o a)) by (rewrite Hsra; exact Hsr).
  destruct (block_as_samples o (a + b) Hsr Hwrapped) as [Aab [Fab Pab]].
  destruct (block_as_samples o a Hsr Hwrapped) as [Aa [Fa Pa]].
  destruct (block_as_samples (process_state o a) b Hsr' Hwa) as [Ab [Fb Pb]].
  rewrite Hsra, Fa in Ab, Fb, Pb.
  destruct (sample_walk_comp (sampleRate o) b
              (fst (snd (sample_walk (sampleRate o) a (frequency o) (pos o))))
              _ _ Pa) as [Ca [Cf Cp]].
  rewrite sample_walk_app in Aab, Fab, Pab; cbn [fst snd] in Aab, Fab, Pab.
  exists (process_state o a), (process_state (process_state o a) b),
    (process_state o (a + b)),
    (map g (process_arguments o a)),
    (map g (process_arguments (process_state o a) b)),
    (map g (process_arguments o (a + b))).
  split; [apply process_silent; [exact Hg|lia]|].
  split; [apply process_silent; [now rewrite Hga|rewrite Hbufa; lia]|].
  split; [apply process_silent; [exact Hg|exact Hlen]|].
  split.
  - rewrite <- map_app; apply Forall2_Qeq_map; [exact Hproper|].
    eapply Forall2_Qeq_trans; [exact Aab|].
    apply Forall2_Qeq_sym, Forall2_app; [exact Aa|].
    eapply Forall2_Qeq_trans; [exact Ab|exact Ca].
  - split.
    + rewrite Pab, Pb; now symmetry.
    + now rewrite Fab, Fb, Cf.
Qed.

Lemma phase_walk_range (inc : Q) (n : nat) :
  0 <= inc ->
  forall p : Q,
    0 <= p < num_twoPi ->
    Forall (fun x => - num_pi <= x < num_pi)
           (map (fun q => (q - num_pi)%num) (phase_walk inc n p)).
Proof.
  intro Hinc; induction n as [|n IH]; intros p Hp; cbn [phase_walk map];
    constructor.
  - exact_ops; generalize twoPi_is_two_pi; lra.
  - apply IH; unfold advance; exact_ops.
    apply Qfmod_nonneg; [apply twoPi_positive|lra].
Qed.

Lemma ramp_walk_range (base : Q) (n : nat) :
  0 <= base ->
  forall (s : LinearSmoothedValue Q) (p : Q),
    smoothing_nonneg s ->
    0 <= p < num_twoPi ->
    Forall (fun x => - num_pi <= x < num_pi) (fst (ramp_walk base n s p)).
Proof.
  intro Hbase; induction n as [|n IH]; intros s p Hs Hp; cbn [ramp_walk].
  - constructor.
  - destruct (getNextValue_nonneg s Hs) as [Hf Hs'].
    destruct (getNextValue s) as [f s']; cbn [fst snd] in Hf, Hs'.
    assert (Hadv : 0 <= advance (base * f)%num p < num_twoPi).
    { unfold advance; exact_ops.
      apply Qfmod_nonneg; [apply twoPi_positive|].
      assert (0 <= base * f) by (apply Qmult_le_0_compat; assumption).
      lra. }
    specialize (IH s' _ Hs' Hadv).
    destruct (ramp_walk base n s' (advance (base * f)%num p)) as [staged final].
    cbn [fst] in *; constructor; [|exact IH].
    exact_ops; generalize twoPi_is_two_pi; lra.
Qed.

Lemma steady_increment_nonneg (o : Oscillator Q) :
  exact_invariant o -> 0 <= steady_increment o /\ 0 <= (num_twoPi / sampleRate o)%num.
Proof.
  intros [Hsr [_ Hs]].
  assert (Hbase : 0 <= num_twoPi / sampleRate o).
  { apply Qle_shift_div_l; [exact Hsr|].
    generalize twoPi_positive; lra. }
  destruct (getNextValue_nonneg _ Hs) as [Hf _].
  split; [|exact Hbase].
  unfold steady_increment; exact_ops.
  apply Qmult_le_0_compat; assumption.
Qed.

(** X9.  In exact arithmetic, with a positive sample rate, a phase in
    [[0, twoPi)] and non-negative frequencies, the generator is only ever
    called inside its domain: every argument [process] and [processSample]
    pass to it lies in [[-pi, pi)]. *)
Theorem generator_arguments_in_domain
        (o o' : Oscillator Q) (g : Q -> Q) (context : ProcessContext Q)
        (b' : AudioBlock Q) :
  exact_invariant o ->
  generator o = Some g ->
  wf_block (outputBlock context) ->
  process context o = Done (o', b') ->
  exists (args : list Q) (x : Q) (os : Oscillator Q),
    b' = mkBlock (numSamples (outputBlock context))
                 (repeat (map g args) (getNumChannels (outputBlock context)))
    /\ length args = numSamples (outputBlock context)
    /\ Forall (fun a => - num_pi <= a < num_pi) args
    /\ processSample o = Done (g x, os)
    /\ - num_pi <= x < num_pi.
Proof.
  intros Hinv Hg Hwf E.
  destruct (process_Done_inv _ _ E) as [_ [Hctx Hle]].
  rewrite (process_Done context o Hg Hctx Hle Hwf) in E.
  apply Done_pair_inv in E; destruct E as [_ <-].
  destruct (steady_increment_nonneg o Hinv) as [Hinc Hbase].
  destruct Hinv as [Hsr [Hp Hs]].
  eexists (process_arguments o (numSamples (outputBlock context))), _, _.
  split; [now rewrite process_samples_arguments|].
  split; [apply process_arguments_length|].
  split.
  - unfold process_arguments; destruct (isSmoothing (frequency o)).
    + now apply ramp_walk_range.
    + now apply phase_walk_range.
  - split; [apply (processSample_Done o Hg)|].
    unfold phase_in_range in Hp; exact_ops.
    generalize twoPi_is_two_pi; lra.
Qed.

End ExactBlocks.

(** ** The life cycle, for every numeric type *)

Section Housekeeping.

Context {T : Type} {numeric : Numeric T} {cache : ApproximationCache T}.

Local Open Scope num_scope.

Lemma getNextValue_target (s : LinearSmoothedValue T) :
  target (snd (getNextValue s)) = target s.
Proof. unfold getNextValue; now destruct (countdown s <=? 0)%Z. Qed.

Lemma smoothed_after_target (n : nat) :
  forall s : LinearSmoothedValue T, target (smoothed_after n s) = target s.
Proof.
  induction n as [|n IH]; intro s; cbn [smoothed_after]; [reflexivity|].
  now rewrite IH, getNextValue_target.
Qed.

Lemma reset_target (o : Oscillator T) : getFrequency (reset o) = getFrequency o.
Proof.
  unfold getFrequency, getTargetValue, reset; cbn [frequency].
  now destruct (num_ltb num_zero (sampleRate o)).
Qed.

(** X10.  Only [setFrequency] changes what [getFrequency] returns:
    [processSample], [process], [reset], [prepare] and [initialise] leave
    the target frequency as it was, in the middle of a ramp as well. *)
Theorem getFrequency_kept
        (c : Call T) (o o' : Oscillator T) (spec : ProcessSpec T)
        (function : T -> T) (numPoints : nat) :
  match c with CallSetFrequency _ _ => False | _ => True end ->
  call c o = Done o' ->
  getFrequency o' = getFrequency o
  /\ getFrequency (prepare spec o) = getFrequency o
  /\ getFrequency (fst (initialise function numPoints o)) = getFrequency o.
Proof.
  intros Hc E; split; [|split].
  - destruct c as [f force| | |context]; cbn [call] in E.
    + contradiction.
    + apply (f_equal (fun r => match r with Done x => x | _ => o end)) in E.
      rewrite <- E; apply reset_target.
    + unfold processSample in E.
      destruct (generator o) as [g|]; [|discriminate].
      unfold getFrequency, getTargetValue.
      rewrite <- (getNextValue_target (frequency o)).
      destruct (getNextValue (frequency o)) as [f s']; cbn [bind snd] in E.
      apply (f_equal (fun r => match r with Done x => x | _ => o end)) in E.
      now rewrite <- E.
    + destruct (process context o) as [[o1 b1]| |] eqn:Ep; cbn [bind fst] in E;
        try discriminate.
      apply (f_equal (fun r => match r with Done x => x | _ => o end)) in E.
      rewrite <- E, (process_Done_state context o Ep).
      unfold getFrequency, getTargetValue.
      rewrite process_state_cursor.
      destruct (isSmoothing (frequency o)); apply smoothed_after_target.
  - unfold prepare; rewrite reset_target; reflexivity.
  - rewrite initialise_branches; cbv zeta.
    now destruct (Nat.eqb numPoints 0).
Qed.

(** X11.  [setFrequency] followed by [getFrequency]: the target becomes the
    frequency set, unless the call was not forced and the target already
    compared equal to it, in which case the call changed nothing at all.
    Phase, sample rate, generator and scratch buffer are never touched. *)
Theorem setFrequency_then_getFrequency
        (newFrequency : T) (force : bool) (o : Oscillator T) :
  (getFrequency (setFrequency newFrequency force o) = newFrequency
   \/ (force = false
       /\ num_eqb (getFrequency o) newFrequency = true
       /\ setFrequency newFrequency force o = o))
  /\ pos (setFrequency newFrequency force o) = pos o
  /\ sampleRate (setFrequency newFrequency force o) = sampleRate o
  /\ generator (setFrequency newFrequency force o) = generator o
  /\ rampBuffer (setFrequency newFrequency force o) = rampBuffer o.
Proof.
  split; [|repeat split].
  unfold getFrequency, getTargetValue, setFrequency, setValue; cbn [frequency].
  destruct force; [now left|].
  destruct (num_eqb (target (frequency o)) newFrequency) eqn:E.
  - right; repeat split; now destruct o.
  - left; now destruct (stepsToTarget (frequency o) <=? 0)%Z.
Qed.

Lemma resize_length {A : Type} (dflt : A) (n : nat) (l : list A) :
  length (resize dflt n l) = n.
Proof. unfold resize; rewrite length_app, length_firstn, repeat_length; lia. Qed.

Lemma resize_idempotent {A : Type} (dflt : A) (n : nat) (l : list A) :
  resize dflt n (resize dflt n l) = resize dflt n l.
Proof.
  unfold resize at 1; rewrite resize_length, Nat.sub_diag; cbn [repeat].
  rewrite app_nil_r; apply firstn_all2; rewrite resize_length; lia.
Qed.

(** X12.  [reset] and [prepare] are idempotent, and a [reset] after a
    [prepare] changes nothing: a host may repeat them freely. *)
Theorem prepare_and_reset_idempotent (spec : ProcessSpec T) (o : Oscillator T) :
  reset (reset o) = reset o
  /\ prepare spec (prepare spec o) = prepare spec o
  /\ reset (prepare spec o) = prepare spec o.
Proof.
  assert (Hreset : forall o1 : Oscillator T, reset (reset o1) = reset o1).
  { intro o1; unfold reset; cbn [generator lookupTable rampBuffer frequency sampleRate pos].
    now destruct (num_ltb num_zero (sampleRate o1)). }
  split; [apply Hreset|].
  split; [|unfold prepare; apply Hreset].
  unfold prepare, reset;
    cbn [generator lookupTable rampBuffer frequency sampleRate pos spec_sampleRate].
  rewrite resize_idempotent.
  now destruct (num_ltb num_zero (spec_sampleRate spec)).
Qed.

Lemma no_samples (l : list (list T)) :
  Forall (fun c => length c = 0) l -> l = repeat [] (length l).
Proof.
  induction 1 as [|c l Hc Hl IH]; cbn [length repeat]; [reflexivity|].
  destruct c; [|discriminate]; now rewrite <- IH.
Qed.

(** X13.  While a ramp is in progress a call of [process] on a block of no
    samples is the identity: oscillator and block are returned as they
    were, and the ramp does not advance. *)
Theorem empty_block_while_ramping
        (context : ProcessContext T) (o : Oscillator T) :
  isInitialised o = true ->
  output_only context = true ->
  wf_block (outputBlock context) ->
  numSamples (outputBlock context) = 0 ->
  isSmoothing (frequency o) = true ->
  process context o = Done (o, outputBlock context).
Proof.
  intros Hi Hctx Hwf Hzero Hs.
  unfold isInitialised in Hi.
  destruct (generator o) as [g|] eqn:Hg; [|discriminate].
  rewrite (process_Done context o Hg Hctx) by (try rewrite Hzero; try lia; exact Hwf).
  unfold process_state, process_samples; rewrite Hs, Hzero.
  cbn [ramp_walk fst snd overwrite map].
  unfold wf_block in Hwf; rewrite Hzero in Hwf.
  unfold getNumChannels; rewrite <- (no_samples _ Hwf), <- Hzero.
  rewrite block_eta; now destruct o.
Qed.

End Housekeeping.

Section ExactPeriod.

Context {cache : ApproximationCache Q}.

Local Open Scope Q_scope.

(** X14.  In exact arithmetic a steady oscillator is periodic: when [N]
    samples hold a whole number [k] of periods ([frequency * N = k *
    sampleRate]), a block of [N] samples brings the phase and the smoothing
    state back to where they were, and any block processed next holds the
    samples it would have held from the start. *)
Theorem steady_block_periodic
        (o : Oscillator Q) (g : Q -> Q) (numChannels N k m : nat) :
  generator o = Some g ->
  Proper (Qeq ==> Qeq) g ->
  0 < sampleRate o ->
  phase_in_range o ->
  isSmoothing (frequency o) = false ->
  (N <= length (rampBuffer o))%nat ->
  (m <= length (rampBuffer o))%nat ->
  getFrequency o * inject_Z (Z.of_nat N) == inject_Z (Z.of_nat k) * sampleRate o ->
  exists (o1 o2 o3 : Oscillator Q) (b1 : AudioBlock Q) (again first : list Q),
    process (silent_context numChannels N) o = Done (o1, b1)
    /\ pos o1 == pos o
    /\ frequency o1 = frequency o
    /\ process (silent_context numChannels m) o1
       = Done (o2, mkBlock m (repeat again numChannels))
    /\ process (silent_context numChannels m) o
       = Done (o3, mkBlock m (repeat first numChannels))
    /\ Forall2 Qeq again first.
Proof.
  intros Hg Hproper Hsr Hp Hs HN Hm Hper.
  unfold getFrequency, getTargetValue in Hper.
  destruct (process_state_frame o N) as [Hg1 [_ [Hsr1 Hbuf1]]].
  assert (Hf1 : frequency (process_state o N) = frequency o).
  { unfold process_state; rewrite Hs; cbn [frequency].
    now rewrite (getNextValue_steady _ Hs). }
  assert (Hwhole : steady_increment o * inject_Z (Z.of_nat N)
                   == num_twoPi * inject_Z (Z.of_nat k)).
  { rewrite (steady_increment_exact o Hsr Hs).
    setoid_replace (num_twoPi * target (frequency o) / sampleRate o
                    * inject_Z (Z.of_nat N))
      with (num_twoPi * (target (frequency o) * inject_Z (Z.of_nat N)) / sampleRate o)
      by (field; lra).
    rewrite Hper; field; lra. }
  assert (Hk : 0 <= num_twoPi * inject_Z (Z.of_nat k)).
  { apply Qmult_le_0_compat; [generalize twoPi_positive; lra|].
    change 0 with (inject_Z 0); rewrite <- Zle_Qle; lia. }
  assert (Hp1 : pos (process_state o N) == pos o).
  { unfold process_state; rewrite Hs; cbn [pos]; exact_ops.
    destruct Hp as [Hlo Hhi].
    apply (Qfmod_unique _ _ _ (Z.of_nat k) twoPi_positive).
    - rewrite Hwhole; ring.
    - intros _; split; assumption.
    - rewrite Hwhole; intro Hx; split; [generalize twoPi_positive|]; lra. }
  exists (process_state o N), (process_state (process_state o N) m),
    (process_state o m),
    (mkBlock N (repeat (map g (process_arguments o N)) numChannels)),
    (map g (process_arguments (process_state o N) m)),
    (map g (process_arguments o m)).
  split; [apply (process_silent o g numChannels N Hg HN)|].
  split; [exact Hp1|].
  split; [exact Hf1|].
  split; [apply process_silent; [now rewrite Hg1|now rewrite Hbuf1]|].
  split; [apply (process_silent o g numChannels m Hg Hm)|].
  apply Forall2_Qeq_map; [exact Hproper|].
  unfold process_arguments, steady_increment; rewrite Hf1, Hsr1, Hs.
  apply phase_walk_comp; [reflexivity|exact Hp1].
Qed.

End ExactPeriod.

(** ** Sessions, for every numeric type *)

Section Sessions.

Context {T : Type} {numeric : Numeric T} {cache : ApproximationCache T}.

Local Open Scope num_scope.

Lemma call_outcome (c : Call T) (o : Oscillator T) :
  isInitialised o = true ->
  if call_accepted (length (rampBuffer o)) c
  then exists o' : Oscillator T,
      call c o = Done o'
      /\ isInitialised o' = true
      /\ length (rampBuffer o') = length (rampBuffer o)
  else call c o = ContractViolation.
Proof.
  intro Hi.
  destruct c as [f force| | |context]; cbn [call call_accepted].
  - eexists; repeat split; exact Hi.
  - eexists; repeat split; exact Hi.
  - unfold isInitialised in Hi.
    destruct (generator o) as [g|] eqn:Hg; [|discriminate].
    rewrite (processSample_Done o Hg); cbn [bind snd].
    eexists; split; [reflexivity|].
    unfold isInitialised; cbn [generator rampBuffer]; now rewrite Hg.
  - generalize (process_cases context o); cbv zeta; rewrite Hi; cbn [andb].
    destruct (output_only context
              && Nat.leb (numSamples (outputBlock context)) (length (rampBuffer o))).
    + intros [b E]; rewrite E; cbn [bind fst].
      eexists; split; [reflexivity|].
      destruct (process_state_frame o (numSamples (outputBlock context)))
        as [Hg [_ [_ Hbuf]]].
      unfold isInitialised in *; now rewrite Hg.
    + intros E; now rewrite E.
Qed.

(** X15.  On an initialised oscillator a session of [setFrequency], [reset],
    [processSample] and [process] calls completes exactly when every
    [process] call in it is output-only and no longer than the scratch
    buffer as it was at the start; otherwise the session stops with a
    contract violation.  A completed session leaves the oscillator
    initialised and the scratch buffer at its length. *)
Theorem session_outcome (cs : list (Call T)) (o : Oscillator T) :
  isInitialised o = true ->
  if forallb (call_accepted (length (rampBuffer o))) cs
  then exists o' : Oscillator T,
      calls cs o = Done o'
      /\ isInitialised o' = true
      /\ length (rampBuffer o') = length (rampBuffer o)
  else calls cs o = ContractViolation.
Proof.
  revert o; induction cs as [|c cs IH]; intros o Hi; cbn [forallb calls].
  - exists o; repeat split; exact Hi.
  - generalize (call_outcome c o Hi).
    destruct (call_accepted (length (rampBuffer o)) c); cbn [andb].
    + intros [o1 [E1 [Hi1 Hb1]]]; rewrite E1; cbn [bind].
      specialize (IH o1 Hi1); rewrite Hb1 in IH.
      destruct (forallb (call_accepted (length (rampBuffer o))) cs).
      * destruct IH as [o' [E [Hi' Hb']]].
        exists o'; repeat split; [exact E|exact Hi'|now rewrite Hb'].
      * exact IH.
    + intros E1; now rewrite E1.
Qed.

(** X16.  An oscillator constructed with a function and never prepared has
    an empty scratch buffer: [process] rejects every block that holds a
    sample, while [processSample] works, at the defaults 440 Hz and
    48 kHz, starting from the phase 0. *)
Theorem process_before_prepare
        (function : T -> T) (numPoints : nat) (context : ProcessContext T) :
  numSamples (outputBlock context) <> 0 ->
  let o := Oscillator_with function numPoints in
  process context o = ContractViolation
  /\ exists (g : T -> T) (o' : Oscillator T),
       generator o = Some g
       /\ processSample o = Done (g (num_zero - num_pi), o')
       /\ pos o' = num_fmod (num_zero + num_twoPi * num_440 / num_48000) num_twoPi
       /\ frequency o' = frequency o.
Proof.
  intro Hlen; cbv zeta.
  unfold Oscillator_with; rewrite initialise_branches; cbv zeta.
  split.
  - generalize (process_cases context
                  (fst (if Nat.eqb numPoints 0
                        then (mkOscillator (Some function) (lookupTable Oscillator_default)
                                (rampBuffer Oscillator_default)
                                (frequency Oscillator_default)
                                (sampleRate Oscillator_default)
                                (pos Oscillator_default), [])
                        else (mkOscillator
                                (Some (lut_call (lut_new function num_negPi num_pi numPoints)))
                                (Some (lut_new function num_negPi num_pi numPoints))
                                (rampBuffer Oscillator_default)
                                (frequency Oscillator_default)
                                (sampleRate Oscillator_default)
                                (pos Oscillator_default),
                              match lookupTable (T := T) Oscillator_default with
                              | Some old => [old]
                              | None => []
                              end)))); cbv zeta.
    destruct (Nat.eqb numPoints 0); cbn [fst rampBuffer Oscillator_default length];
      (destruct (numSamples (outputBlock context)); [contradiction|]);
      cbn [Nat.leb]; rewrite andb_false_r; trivial.
  - destruct (Nat.eqb numPoints 0); cbn [fst];
      eexists _, _; (split; [reflexivity|]);
      (split; [apply processSample_Done; reflexivity|]);
      cbn; split; reflexivity.
Qed.

End Sessions.

Section ExactSessions.

Context {cache : ApproximationCache Q}.

Local Open Scope Q_scope.

Lemma call_wrapped (c : Call Q) (o o' : Oscillator Q) :
  phase_wrapped o -> call c o = Done o' -> phase_wrapped o'.
Proof.
  intros Hp E; unfold phase_wrapped in *.
  destruct c as [f force| | |context]; cbn [call] in E.
  - apply (f_equal (fun r => match r with Done x => pos x | _ => pos o end)) in E.
    cbn [pos setFrequency] in E; now rewrite <- E.
  - apply (f_equal (fun r => match r with Done x => pos x | _ => pos o end)) in E.
    cbn [pos reset] in E; rewrite <- E; exact_ops.
    generalize twoPi_positive; lra.
  - unfold processSample in E.
    destruct (generator o) as [g|]; [|discriminate].
    destruct (getNextValue (frequency o)) as [f s']; cbn [bind snd] in E.
    apply (f_equal (fun r => match r with Done x => pos x | _ => pos o end)) in E.
    cbn [pos] in E; rewrite <- E; exact_ops.
    apply Qfmod_bounded, twoPi_positive.
  - destruct (process context o) as [[o1 b1]| |] eqn:Ep; cbn [bind fst] in E;
      try discriminate.
    apply (f_equal (fun r => match r with Done x => x | _ => o end)) in E.
    rewrite <- E, (process_Done_state context o Ep).
    now apply process_state_wrapped.
Qed.

(** X17.  In exact arithmetic the phase stays strictly within one period of
    zero whatever frequencies are set, negative ones included: from a phase
    in [(-twoPi, twoPi)], as [reset] and [prepare] leave it, every completed
    session ends on a phase in [(-twoPi, twoPi)], so that the next generator
    argument lies in [(-3 pi, pi)].  The sample rate is taken non-zero,
    where the division of the rationals is the division of the reals. *)
Theorem phase_within_one_period (cs : list (Call Q)) (o o' : Oscillator Q) :
  ~ sampleRate o == 0 ->
  phase_wrapped o ->
  calls cs o = Done o' ->
  - num_twoPi < pos o' < num_twoPi
  /\ - (3 * num_pi) < (pos o' - num_pi)%num < num_pi.
Proof.
  intros _ Hp E.
  assert (Hw : phase_wrapped o').
  { revert o Hp E; induction cs as [|c cs IH]; intros o Hp E; cbn [calls] in E.
    - apply (f_equal (fun r => match r with Done x => x | _ => o end)) in E.
      now rewrite <- E.
    - destruct (call c o) as [o1| |] eqn:E1; cbn [bind] in E; try discriminate.
      exact (IH o1 (call_wrapped c o o1 Hp E1) E). }
  split; [exact Hw|].
  unfold phase_wrapped in Hw; exact_ops.
  generalize twoPi_is_two_pi; lra.
Qed.

End ExactSessions.

(** ** The steady branch takes one value of the smoothing primitive *)

Lemma calls_sampleRate {T : Type} {numeric : Numeric T} {cache : ApproximationCache T}
      (cs : list (Call T)) :
  forall o o' : Oscillator T, calls cs o = Done o' -> sampleRate o' = sampleRate o.
Proof.
  induction cs as [|c cs IH]; intros o o' E; cbn [calls] in E.
  - now inversion E.
  - destruct (call c o) as [o1| |] eqn:E1; cbn [bind] in E; try discriminate.
    rewrite (IH _ _ E).
    destruct c as [f force| | |context]; cbn [call] in E1.
    + inversion E1; reflexivity.
    + inversion E1; reflexivity.
    + unfold processSample in E1.
      destruct (generator o); [|discriminate].
      destruct (getNextValue (frequency o)); cbn [bind snd] in E1.
      inversion E1; reflexivity.
    + destruct (process context o) as [[o2 b2]| |] eqn:E2; cbn [bind fst] in E1;
        try discriminate.
      inversion E1; subst.
      rewrite (process_Done_state _ _ E2).
      apply process_state_frame.
Qed.

Lemma calls_wrapped {cache : ApproximationCache Q} (cs : list (Call Q)) :
  forall o o' : Oscillator Q,
    phase_wrapped o -> calls cs o = Done o' -> phase_wrapped o'.
Proof.
  induction cs as [|c cs IH]; intros o o' Hp E; cbn [calls] in E.
  - apply (f_equal (fun r => match r with Done x => x | _ => o end)) in E.
    now rewrite <- E.
  - destruct (call c o) as [o1| |] eqn:E1; cbn [bind] in E; try discriminate.
    exact (IH o1 o' (call_wrapped c o o1 Hp E1) E).
Qed.

(** C10 (amended).  While no ramp is in progress a call of [process]
    takes one value [f] from the smoothing primitive, whatever the block
    length: the primitive is left one step on, every sample of the block is
    computed with the increment [twoPi / sampleRate * f] and the phase
    becomes [fmod (pos + increment * len, twoPi)], for every numeric type.
    On a block of no samples the step is still taken and the block is left
    as it was; the phase is left as it was in exact arithmetic, on an
    oscillator prepared with a positive sample rate, whatever calls
    followed.  [n] calls of [processSample] take [n] steps, in any
    smoothing state. *)
Theorem steady_process_takes_one_step
        {T : Type} {numeric : Numeric T} {cache : ApproximationCache T}
        (context : ProcessContext T) (o o' : Oscillator T) (b' : AudioBlock T) :
  wf_block (outputBlock context) ->
  isSmoothing (frequency o) = false ->
  process context o = Done (o', b') ->
  let len := numSamples (outputBlock context) in
  let increment := (num_twoPi / sampleRate o * fst (getNextValue (frequency o)))%num in
  frequency o' = smoothed_after 1 (frequency o)
  /\ pos o' = num_fmod (pos o + increment * num_ofNat len)%num num_twoPi
  /\ (exists g : T -> T,
        generator o = Some g
        /\ b' = mkBlock len (repeat (steady_samples g increment len (pos o))
                                    (getNumChannels (outputBlock context))))
  /\ (len = 0 -> b' = outputBlock context)
  /\ (forall (n : nat) (os os' : Oscillator T) (vs : list T),
         processSamples n os = Done (vs, os') ->
         frequency os' = smoothed_after n (frequency os))
  /\ (forall (exact : ApproximationCache Q) (function : Q -> Q) (numPoints : nat)
             (spec : ProcessSpec Q) (cs : list (Call Q))
             (oq oq' : Oscillator Q) (cq : ProcessContext Q) (bq' : AudioBlock Q),
         (0 < spec_sampleRate spec)%Q ->
         calls cs (prepare spec (Oscillator_with function numPoints)) = Done oq ->
         isSmoothing (frequency oq) = false ->
         wf_block (outputBlock cq) ->
         numSamples (outputBlock cq) = 0 ->
         process cq oq = Done (oq', bq') ->
         (pos oq' == pos oq)%Q
         /\ frequency oq' = smoothed_after 1 (frequency oq)
         /\ bq' = outputBlock cq).
Proof.
  assert (Hsteady : forall (U : Type) (nu : Numeric U) (ca : ApproximationCache U)
                           (c : ProcessContext U) (u u' : Oscillator U) (b : AudioBlock U),
             wf_block (outputBlock c) ->
             isSmoothing (frequency u) = false ->
             process c u = Done (u', b) ->
             u' = process_state u (numSamples (outputBlock c))
             /\ (exists g : U -> U,
                   generator u = Some g
                   /\ b = mkBlock (numSamples (outputBlock c))
                            (repeat (steady_samples g (steady_increment u)
                                       (numSamples (outputBlock c)) (pos u))
                                    (getNumChannels (outputBlock c))))
             /\ (numSamples (outputBlock c) = 0 -> b = outputBlock c)).
  { intros U nu ca c u u' b Hwf Hs E.
    destruct (process_Done_inv _ _ E) as [[g Hg] [Hctx Hlen]].
    rewrite (process_Done c u Hg Hctx Hlen Hwf) in E.
    apply Done_pair_inv in E; destruct E as [<- <-].
    split; [reflexivity|].
    unfold process_samples; rewrite Hs.
    split; [exists g; split; [exact Hg|reflexivity]|].
    intro Hzero; rewrite Hzero; cbn [steady_samples phase_walk map].
    unfold wf_block in Hwf; rewrite Hzero in Hwf.
    unfold getNumChannels.
    rewrite <- (no_samples _ Hwf), <- Hzero.
    apply block_eta. }
  intros Hwf Hs E; cbv zeta.
  destruct (Hsteady T numeric cache context o o' b' Hwf Hs E) as [-> [Hb Hempty]].
  split; [unfold process_state; rewrite Hs; reflexivity|].
  split; [unfold process_state; rewrite Hs; reflexivity|].
  split; [exact Hb|].
  split; [exact Hempty|].
  split; [intros n os os' vs; apply processSamples_cursor|].
  intros exact function numPoints spec cs oq oq' cq bq' Hsr Ecs Hsq Hwfq Hzero Eq.
  destruct (Hsteady Q Numeric_Q exact cq oq oq' bq' Hwfq Hsq Eq) as [-> [_ Hemptyq]].
  assert (Hw : phase_wrapped oq).
  { apply (calls_wrapped cs (prepare spec (Oscillator_with function numPoints)) oq);
      [|exact Ecs].
    unfold phase_wrapped, prepare, reset; cbn [pos]; exact_ops.
    generalize twoPi_positive; lra. }
  split; [|split; [unfold process_state; rewrite Hsq; reflexivity|exact (Hemptyq Hzero)]].
  unfold process_state; rewrite Hsq, Hzero; cbn [pos]; exact_ops.
  rewrite <- (Qfmod_small (pos oq) num_twoPi) at 2 by exact Hw.
  apply Qfmod_comp; [|reflexivity].
  cbn [Z.of_nat]; change (inject_Z 0) with 0%Q; ring.
Qed.

(** ** The further properties at the example data *)

Lemma example_oscillator_block :
  process example_context (example_oscillator (T := Q))
  = Done (process_state example_oscillator 3,
          mkBlock 3 (repeat (process_samples sawtooth example_oscillator 3) 2)).
Proof.
  exact (process_Done example_context (example_oscillator (T := Q))
           (g := sawtooth) eq_refl eq_refl
           (le_S _ _ (le_S _ _ (le_S _ _ (le_S _ _ (le_S _ _ (le_n 3))))))
           example_block_wf).
Defined.

Lemma example_ramping_block :
  process example_context (example_ramping_oscillator (T := Q))
  = Done (process_state example_ramping_oscillator 3,
          mkBlock 3 (repeat (process_samples sawtooth example_ramping_oscillator 3) 2)).
Proof.
  exact (process_Done example_context (example_ramping_oscillator (T := Q))
           (g := sawtooth) eq_refl eq_refl
           (le_S _ _ (le_S _ _ (le_S _ _ (le_S _ _ (le_S _ _ (le_n 3))))))
           example_block_wf).
Defined.

(** X2 at the example oscillator: two channels against one. *)
Lemma process_state_ignores_channels_witness :
  exists (o1 : Oscillator Q) (b1 b2 : AudioBlock Q),
    process example_context example_oscillator = Done (o1, b1)
    /\ process example_mono_context example_oscillator = Done (o1, b2).
Proof.
  destruct (process_state_ignores_channels
              example_context example_mono_context (example_oscillator (T := Q))
              _ _ eq_refl eq_refl example_oscillator_block) as [b2 E2].
  eexists _, _, b2; split; [exact example_oscillator_block|exact E2].
Defined.

(** X3 at the example block, a ramp in progress. *)
Lemma scratch_buffer_after_process_witness :
  exists (o' : Oscillator Q) (b' : AudioBlock Q),
    process example_context example_ramping_oscillator = Done (o', b')
    /\ rampBuffer o'
       = process_arguments example_ramping_oscillator 3
           ++ skipn 3 (rampBuffer example_ramping_oscillator).
Proof.
  eexists _, _; split; [exact example_ramping_block|].
  exact (scratch_buffer_after_process
           example_context (example_ramping_oscillator (T := Q)) _ _
           example_ramping_block).
Defined.

(** X4 at the example oscillator, a ramp in progress: one sample, then two. *)
Lemma ramping_block_splits_witness :
  exists (oa ob oab : Oscillator Q) (outa outb : list Q),
    process (silent_context 2 1) example_ramping_oscillator
    = Done (oa, mkBlock 1 (repeat outa 2))
    /\ process (silent_context 2 2) oa = Done (ob, mkBlock 2 (repeat outb 2))
    /\ process (silent_context 2 3) example_ramping_oscillator
       = Done (oab, mkBlock 3 (repeat (outa ++ outb) 2))
    /\ pos oab = pos ob
    /\ frequency oab = frequency ob.
Proof.
  exact (ramping_block_splits (example_ramping_oscillator (T := Q)) sawtooth 2 1 2
           eq_refl
           (le_S _ _ (le_S _ _ (le_S _ _ (le_S _ _ (le_S _ _ (le_n 3))))))
           eq_refl eq_refl).
Defined.

(** X6 at the sawtooth, directly and through a table of 4 points. *)
Lemma table_and_function_share_arguments_witness :
  4 <> 0
  /\ exists (od ot : Oscillator Q) (bd : AudioBlock Q) (args : list Q),
       process example_context
               (fst (initialise sawtooth 0 (prepare example_spec Oscillator_default)))
       = Done (od, bd)
       /\ process example_context
                  (fst (initialise sawtooth 4 (prepare example_spec Oscillator_default)))
          = Done (ot, mkBlock 3 (repeat (map (lut_call (lut_new sawtooth num_negPi num_pi 4))
                                             args) 2))
       /\ bd = mkBlock 3 (repeat (map sawtooth args) 2)
       /\ length args = 3
       /\ pos ot = pos od
       /\ frequency ot = frequency od.
Proof.
  assert (Hn : 4 <> 0) by discriminate.
  split; [exact Hn|].
  assert (E := process_Done example_context
                 (fst (initialise sawtooth 0
                         (prepare (T := Q) example_spec Oscillator_default)))
                 (g := sawtooth) eq_refl eq_refl
                 (le_S _ _ (le_S _ _ (le_S _ _ (le_S _ _ (le_S _ _ (le_n 3))))))
                 example_block_wf).
  cbv zeta in E.
  destruct (table_and_function_share_arguments
              sawtooth 4 (prepare (T := Q) example_spec Oscillator_default)
              example_context _ _ Hn example_block_wf E) as [ot [args H]].
  eexists _, ot, _, args; split; [exact E|exact H].
Defined.

(** X7 at the example block, a ramp in progress. *)
Lemma ramping_block_matches_samples_exact_witness :
  exists (ob os : Oscillator Q) (out outs : list Q),
    process example_context example_ramping_oscillator
    = Done (ob, mkBlock 3 (repeat out 2))
    /\ processSamples 3 example_ramping_oscillator = Done (outs, os)
    /\ length out = 3
    /\ Forall2 Qeq out outs
    /\ (pos ob == pos os)%Q
    /\ frequency ob = frequency os.
Proof.
  exact (ramping_block_matches_samples_exact
           (example_ramping_oscillator (T := Q)) sawtooth example_context
           eq_refl sawtooth_proper eq_refl eq_refl eq_refl example_block_wf
           (le_S _ _ (le_S _ _ (le_S _ _ (le_S _ _ (le_S _ _ (le_n 3))))))).
Defined.

(** X8 at the example oscillator, steady: one sample, then two. *)
Lemma block_splits_exact_witness :
  exists (oa ob oab : Oscillator Q) (outa outb outab : list Q),
    process (silent_context 2 1) example_oscillator
    = Done (oa, mkBlock 1 (repeat outa 2))
    /\ process (silent_context 2 2) oa = Done (ob, mkBlock 2 (repeat outb 2))
    /\ process (silent_context 2 3) example_oscillator
       = Done (oab, mkBlock 3 (repeat outab 2))
    /\ Forall2 Qeq outab (outa ++ outb)
    /\ (pos oab == pos ob)%Q
    /\ frequency oab = frequency ob.
Proof.
  exact (block_splits_exact (example_oscillator (T := Q)) sawtooth 2 1 2
           eq_refl sawtooth_proper eq_refl (conj eq_refl eq_refl)
           (le_S _ _ (le_S _ _ (le_S _ _ (le_S _ _ (le_S _ _ (le_n 3))))))).
Defined.

Lemma example_oscillator_invariant : exact_invariant (example_oscillator (T := Q)).
Proof.
  split; [reflexivity|].
  split; [split; [discriminate|reflexivity]|].
  split; [discriminate|].
  split; [discriminate|].
  intro H; discriminate H.
Defined.

(** X9 at the example oscillator and block. *)
Lemma generator_arguments_in_domain_witness :
  exists (o' os : Oscillator Q) (args : list Q) (x : Q),
    process example_context example_oscillator
    = Done (o', mkBlock 3 (repeat (map sawtooth args) 2))
    /\ length args = 3
    /\ Forall (fun a => - num_pi <= a < num_pi)%Q args
    /\ processSample example_oscillator = Done (sawtooth x, os)
    /\ (- num_pi <= x < num_pi)%Q.
Proof.
  destruct (generator_arguments_in_domain
              (example_oscillator (T := Q)) _ sawtooth example_context _
              example_oscillator_invariant eq_refl example_block_wf
              example_oscillator_block) as [args [x [os [Hb H]]]].
  exists (process_state example_oscillator 3), os, args, x.
  split; [|exact H].
  rewrite example_oscillator_block.
  exact (f_equal (fun b => Done (process_state example_oscillator 3, b)) Hb).
Defined.

(** X10 at a block processed in the middle of a ramp. *)
Lemma getFrequency_kept_witness :
  exists o' : Oscillator Q,
    call (CallProcess example_context) example_ramping_oscillator = Done o'
    /\ getFrequency o' = getFrequency (example_ramping_oscillator (T := Q))
    /\ getFrequency (prepare example_spec example_ramping_oscillator)
       = getFrequency (example_ramping_oscillator (T := Q))
    /\ getFrequency (fst (initialise sawtooth 4 example_ramping_oscillator))
       = getFrequency (example_ramping_oscillator (T := Q)).
Proof.
  assert (E : call (CallProcess example_context) (example_ramping_oscillator (T := Q))
              = Done (process_state example_ramping_oscillator 3)).
  { cbn [call]; rewrite example_ramping_block; reflexivity. }
  eexists; split; [exact E|].
  exact (getFrequency_kept (CallProcess example_context)
           (example_ramping_oscillator (T := Q)) _ example_spec sawtooth 4 I E).
Defined.

(** X13 at the block of no samples, a ramp in progress. *)
Lemma empty_block_while_ramping_witness :
  process example_empty_context (example_ramping_oscillator (T := Q))
  = Done (example_ramping_oscillator, outputBlock example_empty_context).
Proof.
  apply empty_block_while_ramping.
  - reflexivity.
  - reflexivity.
  - repeat constructor.
  - reflexivity.
  - reflexivity.
Defined.

(** X14 at 1 kHz and 48 kHz: one period of 48 samples, then two samples. *)
Lemma steady_block_periodic_witness :
  exists (o1 o2 o3 : Oscillator Q) (b1 : AudioBlock Q) (again first : list Q),
    process (silent_context 1 48) period_oscillator = Done (o1, b1)
    /\ (pos o1 == pos period_oscillator)%Q
    /\ frequency o1 = frequency period_oscillator
    /\ process (silent_context 1 2) o1 = Done (o2, mkBlock 2 (repeat again 1))
    /\ process (silent_context 1 2) period_oscillator
       = Done (o3, mkBlock 2 (repeat first 1))
    /\ Forall2 Qeq again first.
Proof.
  apply (steady_block_periodic (period_oscillator (T := Q)) sawtooth 1 48 1 2).
  - reflexivity.
  - exact sawtooth_proper.
  - reflexivity.
  - split; [discriminate|reflexivity].
  - reflexivity.
  - apply Nat.leb_le; reflexivity.
  - apply Nat.leb_le; reflexivity.
  - reflexivity.
Defined.

(** X15 on the example session. *)
Lemma session_outcome_witness :
  exists o' : Oscillator Q,
    calls nonneg_frequency_calls example_oscillator = Done o'
    /\ isInitialised o' = true
    /\ length (rampBuffer o') = length (rampBuffer (example_oscillator (T := Q))).
Proof.
  exact (session_outcome nonneg_frequency_calls (example_oscillator (T := Q)) eq_refl).
Defined.

(** X16 at the sawtooth and the example block. *)
Lemma process_before_prepare_witness :
  process example_context (Oscillator_with (T := Q) sawtooth 0) = ContractViolation
  /\ exists (g : Q -> Q) (o' : Oscillator Q),
       generator (Oscillator_with (T := Q) sawtooth 0) = Some g
       /\ processSample (Oscillator_with (T := Q) sawtooth 0)
          = Done (g (num_sub num_zero num_pi), o')
       /\ pos o'
          = num_fmod (num_add num_zero (num_div (num_mul num_twoPi num_440) num_48000))
                     num_twoPi
       /\ frequency o' = frequency (Oscillator_with (T := Q) sawtooth 0).
Proof.
  apply (process_before_prepare (T := Q) sawtooth 0 example_context).
  discriminate.
Defined.

(** X17 on the session that sets the frequency -440. *)
Lemma phase_within_one_period_witness :
  exists o' : Oscillator Q,
    calls negative_frequency_calls example_oscillator = Done o'
    /\ (- num_twoPi < pos o' < num_twoPi)%Q
    /\ (- (3 * num_pi) < num_sub (pos o') num_pi < num_pi)%Q.
Proof.
  eassert (E : calls negative_frequency_calls (example_oscillator (T := Q)) = Done _).
  { unfold negative_frequency_calls; cbn [calls call bind].
    rewrite (processSample_Done
               (setFrequency (num_sub num_zero num_440) true (example_oscillator (T := Q)))
               (g := sawtooth) eq_refl).
    cbn [bind snd]; reflexivity. }
  eexists; split; [exact E|].
  apply (phase_within_one_period negative_frequency_calls
           (example_oscillator (T := Q)) _).
  - discriminate.
  - split; reflexivity.
  - exact E.
Defined.

(** C10 (amended) at the two-channel example block, and at a block of no
    samples after one call of [processSample]. *)
Lemma steady_process_takes_one_step_witness :
  isSmoothing (frequency (example_oscillator (T := Q))) = false
  /\ exists o' : Oscillator Q,
       process example_context example_oscillator
       = Done (o', mkBlock 3 (repeat (steady_samples sawtooth
                                        (steady_increment example_oscillator) 3
                                        (pos example_oscillator)) 2))
       /\ frequency o' = smoothed_after 1 (frequency example_oscillator)
       /\ pos o'
          = num_fmod (num_add (pos example_oscillator)
                              (num_mul (steady_increment example_oscillator)
                                       (num_ofNat 3)))
                     num_twoPi
       /\ exists oq oq' : Oscillator Q,
            calls [CallProcessSample] example_oscillator = Done oq
            /\ ~ (pos oq == 0)%Q
            /\ process example_empty_context oq
               = Done (oq', outputBlock example_empty_context)
            /\ (pos oq' == pos oq)%Q
            /\ frequency oq' = smoothed_after 1 (frequency oq).
Proof.
  assert (Hs : isSmoothing (frequency (example_oscillator (T := Q))) = false)
    by reflexivity.
  split; [exact Hs|].
  destruct (steady_process_takes_one_step
              example_context (example_oscillator (T := Q)) _ _
              example_block_wf Hs example_oscillator_block)
    as [Hf [Hp [_ [_ [_ Hexact]]]]].
  exists (process_state example_oscillator 3).
  split; [exact example_oscillator_block|].
  split; [exact Hf|].
  split; [exact Hp|].
  eassert (Ecs : calls [CallProcessSample] (example_oscillator (T := Q)) = Done _).
  { cbn [calls call bind].
    rewrite (processSample_Done (example_oscillator (T := Q)) (g := sawtooth) eq_refl).
    cbn [bind snd]; reflexivity. }
  assert (Hwf : wf_block (outputBlock (example_empty_context (T := Q))))
    by (repeat constructor).
  eexists _, _; split; [exact Ecs|].
  split; [intro H; vm_compute in H; discriminate H|].
  assert (Hsr : (0 < spec_sampleRate (example_spec (T := Q)))%Q) by reflexivity.
  assert (Hzero : numSamples (outputBlock (example_empty_context (T := Q))) = 0)
    by reflexivity.
  match type of Ecs with
  | _ = Done ?oq =>
      assert (Hsq : isSmoothing (frequency oq) = false) by reflexivity;
      assert (E := process_Done example_empty_context oq
                     (g := sawtooth) eq_refl eq_refl (Nat.le_0_l _) Hwf);
      cbv zeta in E;
      destruct (Hexact _ sawtooth 0 example_spec [CallProcessSample] oq _
                  example_empty_context _ Hsr Ecs Hsq Hwf Hzero E)
        as [Hpq [Hfq _]];
      split; [exact E|split; [exact Hpq|exact Hfq]]
  end.
Defined.
